(** * Graph construction core of valhalla/mjolnir/graphbuilder.h

    A shallow embedding of the [Edge] and [Node] records of
    [valhalla::mjolnir] and of the [GraphBuilder] passes that work on them,
    followed by the properties of the natural-language specification.

    Conventions.
    - [uint32_t] and [uint64_t] values are numbers in [N]; a store into a
      bitfield of width [w] keeps the low [w] bits, written with [N.land].
    - Positions in a container (an index into the edge sequence, the
      index of a node within its tile) are [nat], the type of list
      positions; the code never computes with them.
    - [std::unordered_map] is a [gmap], [std::vector], [std::list] and the
      file-backed [sequence<Edge>] are lists. *)

From Stdlib Require Import NArith Lia.
From stdpp Require Import numbers option list fin_maps gmap.

Local Open Scope N_scope.

(** ** Bitfields of a 32-bit word *)

Module Bits.

(** Reading the field of [w] bits that starts at bit [off]. *)
Definition get (off w a : N) : N := N.land (N.shiftr a off) (N.ones w).

(** Assigning [v] to that field: the value is cut to [w] bits and the
    other bits of the word are kept. *)
Definition set (off w v a : N) : N :=
  N.lor (N.ldiff a (N.shiftl (N.ones w) off))
        (N.shiftl (N.land v (N.ones w)) off).

Definition of_bool (b : bool) : N := if b then 1 else 0.

Definition to_bool (v : N) : bool := negb (v =? 0).

End Bits.

Arguments Bits.get : simpl never.
Arguments Bits.set : simpl never.

(** ** baldr::GraphId

    Modelled from the spec: [baldr/graphid.h] is not part of the sources.
    The spec makes a graph identifier a triple of hierarchy level, tile
    id and index within the tile. *)

Record GraphId := MkGraphId { tileid : nat; level : nat; index : nat }.

#[global] Instance GraphId_eq_dec : EqDecision GraphId.
Proof. solve_decision. Defined.

#[global] Instance GraphId_countable : Countable GraphId.
Proof.
  apply (inj_countable' (λ g, (tileid g, level g, index g))
                        (λ t, MkGraphId t.1.1 t.1.2 t.2)).
  by intros [].
Defined.

(** The identifier under which a tile is filed: index 0 of that tile. *)
Definition tile_base (g : GraphId) : GraphId :=
  MkGraphId (tileid g) (level g) 0.

(** ** OSMWay

    Modelled from the spec: [mjolnir/osmway.h] is not part of the
    sources.  Only the four accessors [make_edge] calls are kept;
    [road_class] is the numeric value of the [RoadClass] enumerator, as
    [static_cast<uint32_t>] yields it. *)

Record OSMWay := MkOSMWay {
  road_class : N;
  auto_forward : bool;
  auto_backward : bool;
  way_link : bool
}.

(** ** struct Edge *)

Module Edge.

(** [EdgeAttributes] is one 32-bit word; the fields are laid out in
    declaration order from bit 0. *)
Definition EdgeAttributes := N.

Definition llcount_off := 0.
Definition llcount_w := 16.
Definition importance_off := 16.
Definition importance_w := 3.
Definition driveableforward_off := 19.
Definition driveablereverse_off := 20.
Definition traffic_signal_off := 21.
Definition forward_signal_off := 22.
Definition backward_signal_off := 23.
Definition link_off := 24.
Definition spare_off := 25.
Definition spare_w := 7.

Definition llcount (a : EdgeAttributes) : N := Bits.get llcount_off llcount_w a.
Definition importance (a : EdgeAttributes) : N := Bits.get importance_off importance_w a.
Definition driveableforward (a : EdgeAttributes) : bool :=
  Bits.to_bool (Bits.get driveableforward_off 1 a).
Definition driveablereverse (a : EdgeAttributes) : bool :=
  Bits.to_bool (Bits.get driveablereverse_off 1 a).
Definition traffic_signal (a : EdgeAttributes) : bool :=
  Bits.to_bool (Bits.get traffic_signal_off 1 a).
Definition forward_signal (a : EdgeAttributes) : bool :=
  Bits.to_bool (Bits.get forward_signal_off 1 a).
Definition backward_signal (a : EdgeAttributes) : bool :=
  Bits.to_bool (Bits.get backward_signal_off 1 a).
Definition link (a : EdgeAttributes) : bool :=
  Bits.to_bool (Bits.get link_off 1 a).
Definition spare (a : EdgeAttributes) : N := Bits.get spare_off spare_w a.

Definition set_llcount (v : N) (a : EdgeAttributes) : EdgeAttributes :=
  Bits.set llcount_off llcount_w v a.
Definition set_importance (v : N) (a : EdgeAttributes) : EdgeAttributes :=
  Bits.set importance_off importance_w v a.
Definition set_driveableforward (b : bool) (a : EdgeAttributes) : EdgeAttributes :=
  Bits.set driveableforward_off 1 (Bits.of_bool b) a.
Definition set_driveablereverse (b : bool) (a : EdgeAttributes) : EdgeAttributes :=
  Bits.set driveablereverse_off 1 (Bits.of_bool b) a.
Definition set_link (b : bool) (a : EdgeAttributes) : EdgeAttributes :=
  Bits.set link_off 1 (Bits.of_bool b) a.

Arguments llcount : simpl never.
Arguments importance : simpl never.
Arguments driveableforward : simpl never.
Arguments driveablereverse : simpl never.
Arguments traffic_signal : simpl never.
Arguments forward_signal : simpl never.
Arguments backward_signal : simpl never.
Arguments link : simpl never.
Arguments spare : simpl never.
Arguments set_llcount : simpl never.
Arguments set_importance : simpl never.
Arguments set_driveableforward : simpl never.
Arguments set_driveablereverse : simpl never.
Arguments set_link : simpl never.

(** The nine fields of an attribute word, in declaration order. *)
Definition fields (a : EdgeAttributes)
    : N * N * bool * bool * bool * bool * bool * bool * N :=
  (llcount a, importance a, driveableforward a, driveablereverse a,
   traffic_signal a, forward_signal a, backward_signal a, link a, spare a).

Record t := Mk {
  sourcenode_ : GraphId;
  wayindex_ : N;
  llindex_ : N;
  attributes : EdgeAttributes;
  targetnode_ : GraphId
}.

Definition with_attributes (a : EdgeAttributes) (e : t) : t :=
  Mk (sourcenode_ e) (wayindex_ e) (llindex_ e) a (targetnode_ e).

Section MakeEdge.
(** The value of a default-constructed [baldr::GraphId]; its
    constructor is declared in [baldr/graphid.h], which is not part of
    the sources. *)
Variable GraphId_default : GraphId.

(** [Edge e{sourcenode, wayindex, llindex}] value-initialises the
    members that are not listed: the attribute word is zero and the
    target node is a default [GraphId].  The five assignments
    follow. *)
Definition make_edge (sourcenode : GraphId) (wayindex llindex : N)
    (way : OSMWay) : t :=
  let e := Mk sourcenode wayindex llindex 0 GraphId_default in
  let e := with_attributes (set_llcount 1 (attributes e)) e in
  let e := with_attributes (set_importance (road_class way) (attributes e)) e in
  let e := with_attributes (set_driveableforward (auto_forward way) (attributes e)) e in
  let e := with_attributes (set_driveablereverse (auto_backward way) (attributes e)) e in
  let e := with_attributes (set_link (way_link way) (attributes e)) e in
  e.
End MakeEdge.

End Edge.

(** ** NodeAttributes

    Modelled from the spec: the declaration is in [mjolnir/osmnode.h],
    which is not part of the sources.  The fields are the ones the
    accessors of [Node] read and write. *)

Record NodeAttributes := MkNodeAttributes {
  attr_access_mask : N;
  attr_type : N;
  attr_exit_to : bool;
  attr_ref : bool;
  attr_name : bool;
  attr_traffic_signal : bool;
  attr_non_link_edge : bool;
  attr_link_edge : bool
}.

(** [NodeAttributes{}]: every field zero. *)
Definition NodeAttributes_zero : NodeAttributes :=
  MkNodeAttributes 0 0 false false false false false false.

Definition set_attr_link_edge (b : bool) (a : NodeAttributes) : NodeAttributes :=
  MkNodeAttributes (attr_access_mask a) (attr_type a) (attr_exit_to a) (attr_ref a)
    (attr_name a) (attr_traffic_signal a) (attr_non_link_edge a) b.

Definition set_attr_non_link_edge (b : bool) (a : NodeAttributes) : NodeAttributes :=
  MkNodeAttributes (attr_access_mask a) (attr_type a) (attr_exit_to a) (attr_ref a)
    (attr_name a) (attr_traffic_signal a) b (attr_link_edge a).

Definition set_attr_exit_to (b : bool) (a : NodeAttributes) : NodeAttributes :=
  MkNodeAttributes (attr_access_mask a) (attr_type a) b (attr_ref a)
    (attr_name a) (attr_traffic_signal a) (attr_non_link_edge a) (attr_link_edge a).

Definition set_attr_ref (b : bool) (a : NodeAttributes) : NodeAttributes :=
  MkNodeAttributes (attr_access_mask a) (attr_type a) (attr_exit_to a) b
    (attr_name a) (attr_traffic_signal a) (attr_non_link_edge a) (attr_link_edge a).

Definition set_attr_traffic_signal (b : bool) (a : NodeAttributes) : NodeAttributes :=
  MkNodeAttributes (attr_access_mask a) (attr_type a) (attr_exit_to a) (attr_ref a)
    (attr_name a) b (attr_non_link_edge a) (attr_link_edge a).

Definition set_attr_access_mask (v : N) (a : NodeAttributes) : NodeAttributes :=
  MkNodeAttributes v (attr_type a) (attr_exit_to a) (attr_ref a)
    (attr_name a) (attr_traffic_signal a) (attr_non_link_edge a) (attr_link_edge a).

Definition set_attr_type (v : N) (a : NodeAttributes) : NodeAttributes :=
  MkNodeAttributes (attr_access_mask a) v (attr_exit_to a) (attr_ref a)
    (attr_name a) (attr_traffic_signal a) (attr_non_link_edge a) (attr_link_edge a).

(** ** struct Node *)

Module Node.

Record t := Mk {
  edges : list nat;
  attributes : NodeAttributes
}.

(** [Node()] *)
Definition new : t := Mk [] NodeAttributes_zero.

(** [void AddEdge(const uint32_t edgeindex, const bool link)] *)
Definition AddEdge (edgeindex : nat) (link : bool) (n : t) : t :=
  let attrs :=
    if link then set_attr_link_edge true (attributes n)
    else set_attr_non_link_edge true (attributes n) in
  Mk (edges n ++ [edgeindex]) attrs.

(** [Node(const NodeAttributes& attr, const uint32_t edgeindex, const bool link)] *)
Definition make (attr : NodeAttributes) (edgeindex : nat) (link : bool) : t :=
  AddEdge edgeindex link (Mk [] attr).

(** [uint32_t edge_count() const]: [edges.size()] narrowed to 32 bits. *)
Definition edge_count (n : t) : N := N.of_nat (length (edges n)) mod 2 ^ 32.

Definition non_link_edge (n : t) : bool := attr_non_link_edge (attributes n).
Definition link_edge (n : t) : bool := attr_link_edge (attributes n).

(** A run of [AddEdge] calls, first call first. *)
Definition AddEdges (calls : list (nat * bool)) (n : t) : t :=
  foldl (λ n c, AddEdge c.1 c.2 n) n calls.

(** The accessors of the other attributes.  The flags are stored as
    they are given. *)

(** [void set_exit_to(const bool exit_to)] *)
Definition set_exit_to (b : bool) (n : t) : t :=
  Mk (edges n) (set_attr_exit_to b (attributes n)).

(** [bool exit_to() const] *)
Definition exit_to (n : t) : bool := attr_exit_to (attributes n).

(** [void set_ref(const bool ref)] *)
Definition set_ref (b : bool) (n : t) : t :=
  Mk (edges n) (set_attr_ref b (attributes n)).

(** [bool ref() const] *)
Definition ref (n : t) : bool := attr_ref (attributes n).

(** [bool name() const] *)
Definition name (n : t) : bool := attr_name (attributes n).

(** [void set_traffic_signal(const bool traffic_signal)] *)
Definition set_traffic_signal (b : bool) (n : t) : t :=
  Mk (edges n) (set_attr_traffic_signal b (attributes n)).

(** [bool traffic_signal() const] *)
Definition traffic_signal (n : t) : bool := attr_traffic_signal (attributes n).

(** [uint32_t access_mask() const] *)
Definition access_mask (n : t) : N := attr_access_mask (attributes n).

(** [NodeType type() const]: the stored number, read as an enumerator. *)
Definition type (n : t) : N := attr_type (attributes n).

Section Widths.
(** The widths in bits of the fields [access_mask] and [type] of
    [NodeAttributes]; the declaration is in [mjolnir/osmnode.h], which is
    not part of the sources. *)
Variable access_mask_w type_w : N.

(** [void set_access_mask(const uint32_t access_mask)]: the field keeps
    the low bits of the value. *)
Definition set_access_mask (v : N) (n : t) : t :=
  Mk (edges n) (set_attr_access_mask (v mod 2 ^ access_mask_w) (attributes n)).

(** [void set_type(const NodeType type)]: the enumerator is narrowed to
    [uint8_t] and the field keeps the low bits of that. *)
Definition set_type (v : N) (n : t) : t :=
  Mk (edges n) (set_attr_type ((v mod 2 ^ 8) mod 2 ^ type_w) (attributes n)).
End Widths.

End Node.


(** ** DataQuality

    Modelled from the spec: [mjolnir/dataquality.h] is not part of the
    sources.  The spec has one counter per kind of defect; the two kinds
    the passes below report are kept. *)

Record DataQuality := MkDataQuality {
  restriction_defects : nat;
  depth_warnings : nat
}.

Definition add_restriction_defect (q : DataQuality) : DataQuality :=
  MkDataQuality (S (restriction_defects q)) (depth_warnings q).

Definition add_depth_warning (q : DataQuality) : DataQuality :=
  MkDataQuality (restriction_defects q) (S (depth_warnings q)).

(** ** class GraphBuilder

    The members the modelled passes use.  [edges_] is the content of the
    file-backed sequence that [edges_file_] names. *)

Record GraphBuilder := MkGraphBuilder {
  level_ : nat;
  nodes_ : gmap N GraphId;
  edges_ : list Edge.t;
  tilednodes_ : gmap GraphId (list Node.t);
  stats_ : DataQuality
}.

Definition with_edges_stats (es : list Edge.t) (q : DataQuality)
    (gb : GraphBuilder) : GraphBuilder :=
  MkGraphBuilder (level_ gb) (nodes_ gb) es (tilednodes_ gb) q.

Definition with_tilednodes (tn : gmap GraphId (list Node.t))
    (gb : GraphBuilder) : GraphBuilder :=
  MkGraphBuilder (level_ gb) (nodes_ gb) (edges_ gb) tn (stats_ gb).

Definition with_nodes (ns : gmap N GraphId) (gb : GraphBuilder) : GraphBuilder :=
  MkGraphBuilder (level_ gb) ns (edges_ gb) (tilednodes_ gb) (stats_ gb).

(** [Node& GetNode(const baldr::GraphId& id)].

    Modelled from the spec: the body is in graphbuilder.cc, which is
    not part of the sources.  A node is found by its tile and its
    position in the tile's list; [None] stands for an identifier that
    names no node. *)
Definition lookup_node (tiles : gmap GraphId (list Node.t)) (g : GraphId)
    : option Node.t :=
  tile ← tiles !! tile_base g; tile !! index g.

Definition GetNode (gb : GraphBuilder) (g : GraphId) : option Node.t :=
  lookup_node (tilednodes_ gb) g.

(** ** Edge constructor: nodes and the deduplication map *)

Section EdgeConstructor.

(** Tile addressing ([baldr/tilehierarchy.h]) and the parsed node record
    ([mjolnir/osmnode.h]) are not part of the sources: a coordinate is
    any type, and [tile_of] maps a coordinate and a hierarchy level to a
    tile id. *)
Context {PointLL : Type}.
Variable tile_of : PointLL → nat → nat.

Record OSMNode := MkOSMNode {
  latlng : PointLL;
  osm_attributes : NodeAttributes
}.

(** [GraphId AddNodeToTile(osmnodeid, osmnode, edgeindex, link)].

    Modelled from the spec: the body is in graphbuilder.cc, which is
    not part of the sources.  The tile comes from the node's coordinate,
    the new node goes to the end of that tile's list, its position there
    is the index of the new identifier, and the deduplication map
    records the identifier for the source node. *)
Definition AddNodeToTile (osmnodeid : N) (osmnode : OSMNode)
    (edgeindex : nat) (link : bool) (gb : GraphBuilder)
    : GraphId * GraphBuilder :=
  let base := MkGraphId (tile_of (latlng osmnode) (level_ gb)) (level_ gb) 0 in
  let tile := default [] (tilednodes_ gb !! base) in
  let graphid := MkGraphId (tileid base) (level base) (length tile) in
  let tile' := tile ++ [Node.make (osm_attributes osmnode) edgeindex link] in
  (graphid,
   with_nodes (<[osmnodeid := graphid]> (nodes_ gb))
     (with_tilednodes (<[base := tile']> (tilednodes_ gb)) gb)).

(** [GetNode(id).AddEdge(edgeindex, link)] *)
Definition add_edge_at (g : GraphId) (edgeindex : nat) (link : bool)
    (gb : GraphBuilder) : GraphBuilder :=
  with_tilednodes
    (alter (alter (Node.AddEdge edgeindex link) (index g)) (tile_base g)
           (tilednodes_ gb))
    gb.

(** One reference of a way to a node candidate, the step of
    [ConstructEdges] that resolves it.

    Modelled from the spec: the body of [ConstructEdges] is in
    graphbuilder.cc, which is not part of the sources.  A source node
    that already has a graph identifier keeps it and gets the edge
    appended; any other is allocated with [AddNodeToTile]. *)
Definition reference_node (osmnodeid : N) (osmnode : OSMNode)
    (edgeindex : nat) (link : bool) (gb : GraphBuilder)
    : GraphId * GraphBuilder :=
  match nodes_ gb !! osmnodeid with
  | Some g => (g, add_edge_at g edgeindex link gb)
  | None => AddNodeToTile osmnodeid osmnode edgeindex link gb
  end.

(** A run of references, in order; the identifiers are dropped. *)
Definition reference_nodes (refs : list (N * OSMNode * nat * bool))
    (gb : GraphBuilder) : GraphBuilder :=
  foldl (λ gb r, (reference_node r.1.1.1 r.1.1.2 r.1.2 r.2 gb).2) gb refs.

End EdgeConstructor.

(** Every entry of the deduplication map names a node of its tile. *)
Definition dedup_wf (gb : GraphBuilder) : Prop :=
  ∀ k g, nodes_ gb !! k = Some g → is_Some (GetNode gb g).

(** The number of nodes of every tile. *)
Definition tile_sizes (gb : GraphBuilder) : gmap GraphId nat :=
  length <$> tilednodes_ gb.

(** A builder with nothing in it. *)
Definition empty_builder (lvl : nat) : GraphBuilder :=
  MkGraphBuilder lvl ∅ [] ∅ (MkDataQuality 0 0).

(** ** Edge constructor: what is filled in on an edge later *)

(** One more lat,lng is filled in on an edge.

    Modelled from the spec: the header says of [make_edge] that the
    target node and additional lat,lngs are filled in later, and the
    spec that the shape-point count of an edge is the length of its run
    of coordinates; the code that does it is in graphbuilder.cc, which
    is not part of the sources.  The count is a field of 16 bits: the
    store of the count plus one keeps the low 16 bits. *)
Definition add_latlng (e : Edge.t) : Edge.t :=
  let a := Edge.attributes e in
  Edge.with_attributes (Edge.set_llcount (Edge.llcount a + 1) a) e.

(** The target node is filled in.

    Modelled from the spec: the same remark of the header; the code is
    in graphbuilder.cc. *)
Definition set_targetnode (target : GraphId) (e : Edge.t) : Edge.t :=
  Edge.Mk (Edge.sourcenode_ e) (Edge.wayindex_ e) (Edge.llindex_ e)
          (Edge.attributes e) target.

(** The edge of a run of [run] coordinates between two node candidates:
    [make_edge] at the first coordinate, then one [add_latlng] for each
    of the others.

    Modelled from the spec: section 4.1 appends an edge whose
    shape-point count is the run length; the body of [ConstructEdges] is
    in graphbuilder.cc. *)
Definition run_edge (GraphId_default sourcenode : GraphId) (wayindex llindex : N)
    (way : OSMWay) (run : nat) : Edge.t :=
  Nat.iter (run - 1) add_latlng
    (Edge.make_edge GraphId_default sourcenode wayindex llindex way).

(** ** Restriction rewriter *)

(** [void UpdateRestrictions(OSMData& osmdata)].

    Modelled from the spec: the body is in graphbuilder.cc and the
    restriction record in [mjolnir/osmdata.h]; neither is part of the
    sources.  A restriction is the sequence of its source node
    identifiers.  Every endpoint is translated through the deduplication
    map; a restriction with a missing endpoint is dropped and counted,
    any other is emitted with graph identifiers. *)
Definition translate_restriction (nodes : gmap N GraphId) (r : list N)
    : option (list GraphId) :=
  mapM (λ k, nodes !! k) r.

Definition update_restriction (nodes : gmap N GraphId)
    (acc : list (list GraphId) * DataQuality) (r : list N)
    : list (list GraphId) * DataQuality :=
  match translate_restriction nodes r with
  | Some r' => (acc.1 ++ [r'], acc.2)
  | None => (acc.1, add_restriction_defect acc.2)
  end.

Definition UpdateRestrictions (restrictions : list (list N)) (gb : GraphBuilder)
    : list (list GraphId) * GraphBuilder :=
  let res := foldl (update_restriction (nodes_ gb)) ([], stats_ gb) restrictions in
  (res.1, with_edges_stats (edges_ gb) res.2 gb).

(** A restriction all of whose endpoints are in the map. *)
Definition all_mapped (nodes : gmap N GraphId) (r : list N) : Prop :=
  Forall (λ k, is_Some (nodes !! k)) r.

(** ** Link reclassifier *)

Section LinkReclassifier.

(** The spec leaves open what the scan returns for a node without any
    non-link edge; the value is a parameter.  The maximum search depth
    comes from the configuration. *)
Variable no_class : N.
Variable max_depth : nat.

(** The importance ranks of the non-link edges of a node, in the order
    of its edge list.  An index that names no edge contributes nothing. *)
Definition non_link_classes (node : Node.t) (edges : list Edge.t) : list N :=
  omap (λ idx,
          e ← edges !! idx;
          if Edge.link (Edge.attributes e) then None
          else Some (Edge.importance (Edge.attributes e)))
       (Node.edges node).

(** [uint32_t GetBestNonLinkClass(const Node& node, sequence<Edge>& edges) const].

    Modelled from the spec: the body is in graphbuilder.cc, which is
    not part of the sources.  The incident non-link edges are scanned
    and the smallest importance rank among them is kept. *)
Definition GetBestNonLinkClass (node : Node.t) (edges : list Edge.t) : N :=
  match non_link_classes node edges with
  | [] => no_class
  | c :: cs => foldl N.min c cs
  end.

(** The node at the other end of an edge. *)
Definition other_end (e : Edge.t) (from : GraphId) : GraphId :=
  if decide (Edge.sourcenode_ e = from) then Edge.targetnode_ e
  else Edge.sourcenode_ e.

Definition is_link (edges : list Edge.t) (idx : nat) : bool :=
  match edges !! idx with
  | Some e => Edge.link (Edge.attributes e)
  | None => false
  end.

(** The link edge on which a chain leaves a node it entered by
    [arrived]: the first link edge of the node's list other than that
    one. *)
Definition next_link (edges : list Edge.t) (n : Node.t) (arrived : nat)
    : option nat :=
  List.find (λ i, negb (Nat.eqb i arrived) && is_link edges i) (Node.edges n).

(** What a walk along a chain ends with: the other end was reached, with
    the edges traversed and the best non-link class there; the depth
    bound ran out first; or the chain stops at a node with nothing to
    continue on. *)
Inductive walk_result :=
| Found (chain : list nat) (endclass : N)
| Exhausted
| DeadEnd.

(** The walk along the chain that leaves node [from] by edge [idx], node
    by node, with [depth] edges left to traverse. *)
Fixpoint walk (tiles : gmap GraphId (list Node.t)) (edges : list Edge.t)
    (depth : nat) (from : GraphId) (idx : nat) (chain : list nat)
    : walk_result :=
  match depth with
  | O => Exhausted
  | S depth' =>
    match edges !! idx with
    | None => DeadEnd
    | Some e =>
      let nxt := other_end e from in
      match lookup_node tiles nxt with
      | None => DeadEnd
      | Some n =>
        if Node.non_link_edge n
        then Found (chain ++ [idx]) (GetBestNonLinkClass n edges)
        else match next_link edges n idx with
             | None => DeadEnd
             | Some idx' => walk tiles edges depth' nxt idx' (chain ++ [idx])
             end
      end
    end
  end.

(** The importance of an edge becomes the smaller of its value and [rc]. *)
Definition lower_importance (rc : N) (e : Edge.t) : Edge.t :=
  let a := Edge.attributes e in
  Edge.with_attributes (Edge.set_importance (N.min (Edge.importance a) rc) a) e.

Definition lower_chain (rc : N) (chain : list nat) (edges : list Edge.t)
    : list Edge.t :=
  foldl (λ es idx, alter (lower_importance rc) idx es) edges chain.

(** One chain: the link edge [idx] that leaves the junction [from], whose
    best non-link class is [best]. *)
Definition reclassify_chain (tiles : gmap GraphId (list Node.t))
    (from : GraphId) (best : N) (st : list Edge.t * DataQuality) (idx : nat)
    : list Edge.t * DataQuality :=
  if is_link st.1 idx then
    match walk tiles st.1 max_depth from idx [] with
    | Found chain endclass =>
        (lower_chain (N.min best endclass) chain st.1, st.2)
    | Exhausted => (st.1, add_depth_warning st.2)
    | DeadEnd => st
    end
  else st.

(** One node: only a junction of a ramp with a through road, which has
    both flags set, is processed. *)
Definition reclassify_node (tiles : gmap GraphId (list Node.t))
    (st : list Edge.t * DataQuality) (gn : GraphId * Node.t)
    : list Edge.t * DataQuality :=
  if Node.link_edge gn.2 && Node.non_link_edge gn.2 then
    foldl (reclassify_chain tiles gn.1 (GetBestNonLinkClass gn.2 st.1))
          st (Node.edges gn.2)
  else st.

(** The nodes of a tile with their graph identifiers. *)
Definition tile_nodes (t : GraphId * list Node.t) : list (GraphId * Node.t) :=
  imap (λ i n, (MkGraphId (tileid t.1) (level t.1) i, n)) t.2.

Definition all_nodes (tiles : gmap GraphId (list Node.t))
    : list (GraphId * Node.t) :=
  map_to_list tiles ≫= tile_nodes.

(** [void ReclassifyLinks(const std::string& ways_file)].

    Modelled from the spec: the body is in graphbuilder.cc, which is
    not part of the sources.  Every node of every tile is visited; from
    a junction the chain behind each of its link edges is walked up to
    the depth bound, and a chain whose other end is found has every
    traversed edge lowered to the best class found at either end.  The
    edge sequence is changed in place, so a later chain reads what the
    earlier ones wrote. *)
Definition ReclassifyLinks (gb : GraphBuilder) : GraphBuilder :=
  let res := foldl (reclassify_node (tilednodes_ gb))
                   (edges_ gb, stats_ gb) (all_nodes (tilednodes_ gb)) in
  with_edges_stats res.1 res.2 gb.

(** A chain that is longer than [depth] edges: the walk can take [depth]
    steps and is still inside the chain.  [chain_continues d from idx]
    says that [d] edges can be traversed from [from] along [idx] without
    meeting a node that has a non-link edge. *)
Fixpoint chain_continues (tiles : gmap GraphId (list Node.t))
    (edges : list Edge.t) (d : nat) (from : GraphId) (idx : nat) : Prop :=
  match d with
  | O => True
  | S d' =>
    ∃ e n idx',
      edges !! idx = Some e ∧
      lookup_node tiles (other_end e from) = Some n ∧
      Node.non_link_edge n = false ∧
      next_link edges n idx = Some idx' ∧
      chain_continues tiles edges d' (other_end e from) idx'
  end.

(** The chains the pass walks: a junction, its best class, and one of
    its link edges. *)
Definition junction_chain (tiles : gmap GraphId (list Node.t))
    (edges : list Edge.t) (g : GraphId) (n : Node.t) (idx : nat) : Prop :=
  (g, n) ∈ all_nodes tiles ∧
  Node.link_edge n = true ∧ Node.non_link_edge n = true ∧
  idx ∈ Node.edges n ∧ is_link edges idx = true.

End LinkReclassifier.

(** ** Notions used in the proofs about the deduplication map *)

(** [gb'] keeps what [gb] has: every entry of the deduplication map, and
    every node, with the edges it had at the front of its list. *)
Definition extends (gb gb' : GraphBuilder) : Prop :=
  (∀ k g, nodes_ gb !! k = Some g → nodes_ gb' !! k = Some g) ∧
  (∀ g n, GetNode gb g = Some n →
     ∃ n', GetNode gb' g = Some n' ∧ Node.edges n `prefix_of` Node.edges n').

(** Sample input: coordinates are numbers, ten of them to a tile. *)
Definition sample_tile_of (p : nat) (lvl : nat) : nat := (p / 10)%nat.

Definition sample_osmnode (p : nat) : @OSMNode nat :=
  MkOSMNode p NodeAttributes_zero.

(** ** Notions used in the proofs about the link reclassifier *)

(** What a walk can read of an edge: everything of a non-link edge, and
    everything but the importance of a link edge. *)
Definition skeleton (e : Edge.t) : Edge.t :=
  if Edge.link (Edge.attributes e)
  then Edge.with_attributes (Edge.set_importance 0 (Edge.attributes e)) e
  else e.

Definition same_skeleton (es es' : list Edge.t) : Prop :=
  skeleton <$> es = skeleton <$> es'.

(** A list of single updates, each an edge index and the class the edge
    is lowered to, applied in order. *)
Definition apply_updates (us : list (nat * N)) (es : list Edge.t) : list Edge.t :=
  foldl (λ es u, alter (lower_importance u.2) u.1 es) es us.

(** The same updates on one edge, the one at index [i]. *)
Definition lower_all (us : list (nat * N)) (i : nat) (e : Edge.t) : Edge.t :=
  foldl (λ e u, if decide (u.1 = i) then lower_importance u.2 e else e) e us.

(** The classes the updates for index [i] lower to. *)
Definition classes_for (us : list (nat * N)) (i : nat) : list N :=
  (filter (λ u, u.1 = i) us).*2.

Section PassUpdates.
Variable no_class : N.
Variable max_depth : nat.
Variable tiles : gmap GraphId (list Node.t).
Variable es0 : list Edge.t.

(** The updates and the warnings of one chain, of one node and of the
    whole pass, all read off the edge sequence [es0]. *)
Definition chain_updates (from : GraphId) (best : N) (idx : nat) : list (nat * N) :=
  if is_link es0 idx then
    match walk no_class tiles es0 max_depth from idx [] with
    | Found chain endclass => (λ i, (i, N.min best endclass)) <$> chain
    | _ => []
    end
  else [].

Definition chain_warnings (from : GraphId) (idx : nat) : nat :=
  if is_link es0 idx then
    match walk no_class tiles es0 max_depth from idx [] with
    | Exhausted => 1
    | _ => 0
    end
  else 0.

Definition node_updates (gn : GraphId * Node.t) : list (nat * N) :=
  if Node.link_edge gn.2 && Node.non_link_edge gn.2 then
    Node.edges gn.2 ≫= chain_updates gn.1 (GetBestNonLinkClass no_class gn.2 es0)
  else [].

Definition node_warnings (gn : GraphId * Node.t) : nat :=
  if Node.link_edge gn.2 && Node.non_link_edge gn.2 then
    sum_list (chain_warnings gn.1 <$> Node.edges gn.2)
  else 0.

Definition pass_updates : list (nat * N) := all_nodes tiles ≫= node_updates.

Definition pass_warnings : nat := sum_list (node_warnings <$> all_nodes tiles).

End PassUpdates.

Definition add_depth_warnings (k : nat) (q : DataQuality) : DataQuality :=
  MkDataQuality (restriction_defects q) (k + depth_warnings q).

(** ** Nodes the interface of [Node] can build *)

Section NodeStates.
Variable access_mask_w type_w : N.

(** A node is built by one of the two constructors and changed by
    [AddEdge] and the setters only. *)
Inductive constructed : Node.t → Prop :=
| constructed_new : constructed Node.new
| constructed_make attr e l : constructed (Node.make attr e l)
| constructed_AddEdge e l n :
    constructed n → constructed (Node.AddEdge e l n)
| constructed_set_exit_to b n :
    constructed n → constructed (Node.set_exit_to b n)
| constructed_set_ref b n :
    constructed n → constructed (Node.set_ref b n)
| constructed_set_traffic_signal b n :
    constructed n → constructed (Node.set_traffic_signal b n)
| constructed_set_access_mask v n :
    constructed n → constructed (Node.set_access_mask access_mask_w v n)
| constructed_set_type v n :
    constructed n → constructed (Node.set_type type_w v n).

End NodeStates.

(** A node with two edges and a few attributes set. *)
Definition sample_constructed : Node.t :=
  Node.AddEdge 6 true
    (Node.set_access_mask 8 300
       (Node.AddEdge 3 false (Node.set_exit_to true Node.new))).

(** ** Sample data *)

(** Attributes of a parsed node that already carry the link-edge flag. *)
Definition preset_link_attributes : NodeAttributes :=
  MkNodeAttributes 0 0 false false false false false true.

Definition three_calls : list (nat * bool) :=
  [(4%nat, true); (9%nat, false); (2%nat, true)].

Definition sample_default : GraphId := MkGraphId 0 0 0.

Definition sample_way : OSMWay := MkOSMWay 4 true false true.

(** A sample graph, all in one tile of level 2.  Junction 0 has two
    through roads, of importance 2 and 4, and a ramp; the ramp is a
    chain of three link edges over the nodes 1 and 2 and ends at
    junction 3, which has a through road of importance 1.  Nodes 4, 5
    and 6 are the far ends of the through roads. *)
Definition sample_node_id (i : nat) : GraphId := MkGraphId 0 2 i.

Definition sample_edge (s t : nat) (rc : N) (link : bool) : Edge.t :=
  let e := Edge.make_edge sample_default (sample_node_id s) 0 0
             (MkOSMWay rc true true link) in
  Edge.Mk (Edge.sourcenode_ e) (Edge.wayindex_ e) (Edge.llindex_ e)
          (Edge.attributes e) (sample_node_id t).

Definition sample_edges : list Edge.t :=
  [ sample_edge 0 4 2 false;
    sample_edge 0 5 4 false;
    sample_edge 0 1 5 true;
    sample_edge 1 2 6 true;
    sample_edge 2 3 5 true;
    sample_edge 3 6 1 false ].

Definition sample_nodes : list Node.t :=
  [ Node.AddEdges [(0, false); (1, false); (2, true)]%nat Node.new;
    Node.AddEdges [(2, true); (3, true)]%nat Node.new;
    Node.AddEdges [(3, true); (4, true)]%nat Node.new;
    Node.AddEdges [(4, true); (5, false)]%nat Node.new;
    Node.AddEdges [(0, false)]%nat Node.new;
    Node.AddEdges [(1, false)]%nat Node.new;
    Node.AddEdges [(5, false)]%nat Node.new ].

Definition sample_junction : Node.t :=
  Node.AddEdges [(0, false); (1, false); (2, true)]%nat Node.new.

Definition sample_builder : GraphBuilder :=
  MkGraphBuilder 2
    (<[77 := sample_node_id 0]> (<[78 := sample_node_id 3]> ∅))
    sample_edges
    {[ sample_node_id 0 := sample_nodes ]}
    (MkDataQuality 0 0).

(** The importance of every edge of a builder, in order. *)
Definition importances (gb : GraphBuilder) : list N :=
  (λ e, Edge.importance (Edge.attributes e)) <$> edges_ gb.

(** A forked ramp, in one tile of level 2.  Junction 0 has a through
    road of importance 3 (edge 0) and the ramp edge 1 to node 1.  At
    node 1 the ramp forks: edge 2 goes on over the nodes 2 and 3 to
    node 5 by the edges 4 and 5, and edge 3 goes to junction 4, which has
    a through road of importance 0 (edge 6).  Nodes 6 and 7 are the far
    ends of the through roads. *)
Definition forked_edges : list Edge.t :=
  [ sample_edge 0 6 3 false;
    sample_edge 0 1 5 true;
    sample_edge 1 2 5 true;
    sample_edge 1 4 5 true;
    sample_edge 2 3 5 true;
    sample_edge 3 5 5 true;
    sample_edge 4 7 0 false ].

Definition forked_junction : Node.t :=
  Node.AddEdges [(0, false); (1, true)]%nat Node.new.

Definition forked_nodes : list Node.t :=
  [ forked_junction;
    Node.AddEdges [(1, true); (2, true); (3, true)]%nat Node.new;
    Node.AddEdges [(2, true); (4, true)]%nat Node.new;
    Node.AddEdges [(4, true); (5, true)]%nat Node.new;
    Node.AddEdges [(3, true); (6, false)]%nat Node.new;
    Node.AddEdges [(5, true)]%nat Node.new;
    Node.AddEdges [(0, false)]%nat Node.new;
    Node.AddEdges [(6, false)]%nat Node.new ].

Definition forked_builder : GraphBuilder :=
  MkGraphBuilder 2 ∅ forked_edges
    {[ sample_node_id 0 := forked_nodes ]}
    (MkDataQuality 0 0).

(** * Properties *)

(** ** Bitfields *)

Lemma testbit_get off w a i :
  N.testbit (Bits.get off w a) i = (i <? w) && N.testbit a (i + off).
Proof.
  unfold Bits.get. rewrite N.land_spec, N.shiftr_spec', andb_comm.
  destruct (N.ltb_spec i w).
  - by rewrite N.ones_spec_low.
  - by rewrite N.ones_spec_high.
Qed.

Lemma testbit_set off w v a j :
  N.testbit (Bits.set off w v a) j =
  if (off <=? j) && (j <? off + w) then N.testbit v (j - off) else N.testbit a j.
Proof.
  unfold Bits.set. rewrite N.lor_spec, N.ldiff_spec.
  destruct (N.leb_spec off j) as [Hle|Hlt]; simpl.
  - rewrite !N.shiftl_spec_high', N.land_spec by done.
    destruct (N.ltb_spec j (off + w)).
    + rewrite N.ones_spec_low by lia. simpl.
      rewrite andb_false_r, andb_true_r. done.
    + rewrite N.ones_spec_high by lia. simpl.
      by rewrite !andb_true_r, andb_false_r, orb_false_r.
  - rewrite !N.shiftl_spec_low by done. simpl.
    by rewrite andb_true_r, orb_false_r.
Qed.

Lemma get_set_same off w v a : Bits.get off w (Bits.set off w v a) = v mod 2 ^ w.
Proof.
  rewrite <- N.land_ones. apply N.bits_inj. intros i.
  rewrite testbit_get, testbit_set, N.land_spec.
  destruct (N.ltb_spec i w); simpl.
  - rewrite N.ones_spec_low, andb_true_r by done.
    replace (off <=? i + off) with true by (symmetry; apply N.leb_le; lia).
    replace (i + off <? off + w) with true by (symmetry; apply N.ltb_lt; lia).
    simpl. f_equal. lia.
  - by rewrite N.ones_spec_high, andb_false_r.
Qed.

Lemma get_set_other off w off' w' v a :
  off' + w' ≤ off ∨ off + w ≤ off' →
  Bits.get off' w' (Bits.set off w v a) = Bits.get off' w' a.
Proof.
  intros Hdisj. apply N.bits_inj. intros i.
  rewrite !testbit_get, testbit_set.
  destruct (N.ltb_spec i w'); simpl; [|done].
  destruct (N.leb_spec off (i + off')); simpl; [|done].
  destruct (N.ltb_spec (i + off') (off + w)); [lia|done].
Qed.

Lemma set_set off w v v' a :
  Bits.set off w v (Bits.set off w v' a) = Bits.set off w v a.
Proof.
  apply N.bits_inj. intros i. rewrite !testbit_set.
  by destruct ((off <=? i) && (i <? off + w)).
Qed.

Lemma set_get off w a : Bits.set off w (Bits.get off w a) a = a.
Proof.
  apply N.bits_inj. intros i. rewrite testbit_set, testbit_get.
  destruct (N.leb_spec off i); simpl; [|done].
  destruct (N.ltb_spec i (off + w)); [|done].
  replace (i - off <? w) with true by (symmetry; apply N.ltb_lt; lia).
  simpl. f_equal. lia.
Qed.

Lemma get_lt off w a : Bits.get off w a < 2 ^ w.
Proof.
  unfold Bits.get. rewrite N.land_ones. apply N.mod_lt.
  apply N.pow_nonzero. lia.
Qed.

Lemma get_zero off w : Bits.get off w 0 = 0.
Proof. unfold Bits.get. by rewrite N.shiftr_0_l, N.land_0_l. Qed.

Lemma to_bool_of_bool b : Bits.to_bool (Bits.of_bool b mod 2 ^ 1) = b.
Proof. by destruct b. Qed.

(** The bit operations are not unfolded from here on. *)
Opaque Bits.get Bits.set.

(** ** Edge attributes *)

Lemma importance_set_importance v a :
  Edge.importance (Edge.set_importance v a) = v mod 2 ^ 3.
Proof. apply get_set_same. Qed.

Lemma llcount_set_llcount v a :
  Edge.llcount (Edge.set_llcount v a) = v mod 2 ^ 16.
Proof. apply get_set_same. Qed.

Lemma importance_lt a : Edge.importance a < 8.
Proof. apply (get_lt 16 3). Qed.

Lemma set_importance_twice v v' a :
  Edge.set_importance v (Edge.set_importance v' a) = Edge.set_importance v a.
Proof. apply set_set. Qed.

Lemma set_importance_same a :
  Edge.set_importance (Edge.importance a) a = a.
Proof. apply set_get. Qed.

(** A field keeps its value when another field is assigned. *)
Ltac other_field :=
  unfold Edge.llcount, Edge.importance, Edge.driveableforward,
    Edge.driveablereverse, Edge.traffic_signal, Edge.forward_signal,
    Edge.backward_signal, Edge.link, Edge.spare,
    Edge.set_llcount, Edge.set_importance, Edge.set_driveableforward,
    Edge.set_driveablereverse, Edge.set_link;
  rewrite get_set_other; [reflexivity | vm_compute; intuition discriminate].

Lemma llcount_set_importance v a :
  Edge.llcount (Edge.set_importance v a) = Edge.llcount a.
Proof. other_field. Qed.

Lemma driveableforward_set_importance v a :
  Edge.driveableforward (Edge.set_importance v a) = Edge.driveableforward a.
Proof. other_field. Qed.

Lemma driveablereverse_set_importance v a :
  Edge.driveablereverse (Edge.set_importance v a) = Edge.driveablereverse a.
Proof. other_field. Qed.

Lemma traffic_signal_set_importance v a :
  Edge.traffic_signal (Edge.set_importance v a) = Edge.traffic_signal a.
Proof. other_field. Qed.

Lemma forward_signal_set_importance v a :
  Edge.forward_signal (Edge.set_importance v a) = Edge.forward_signal a.
Proof. other_field. Qed.

Lemma backward_signal_set_importance v a :
  Edge.backward_signal (Edge.set_importance v a) = Edge.backward_signal a.
Proof. other_field. Qed.

Lemma link_set_importance v a :
  Edge.link (Edge.set_importance v a) = Edge.link a.
Proof. other_field. Qed.

Lemma spare_set_importance v a :
  Edge.spare (Edge.set_importance v a) = Edge.spare a.
Proof. other_field. Qed.

(** The attribute word [make_edge] builds, field by field. *)
Lemma make_edge_attributes d s w l way :
  let a := Edge.attributes (Edge.make_edge d s w l way) in
  Edge.llcount a = 1 ∧
  Edge.importance a = road_class way mod 2 ^ 3 ∧
  Edge.driveableforward a = auto_forward way ∧
  Edge.driveablereverse a = auto_backward way ∧
  Edge.traffic_signal a = false ∧
  Edge.forward_signal a = false ∧
  Edge.backward_signal a = false ∧
  Edge.link a = way_link way ∧
  Edge.spare a = 0.
Proof.
  cbn -[Edge.llcount Edge.importance Edge.driveableforward
        Edge.driveablereverse Edge.traffic_signal Edge.forward_signal
        Edge.backward_signal Edge.link Edge.spare
        Edge.set_llcount Edge.set_importance Edge.set_driveableforward
        Edge.set_driveablereverse Edge.set_link].
  unfold Edge.llcount, Edge.importance, Edge.driveableforward,
    Edge.driveablereverse, Edge.traffic_signal, Edge.forward_signal,
    Edge.backward_signal, Edge.link, Edge.spare,
    Edge.set_llcount, Edge.set_importance, Edge.set_driveableforward,
    Edge.set_driveablereverse, Edge.set_link.
  repeat split;
    repeat (rewrite get_set_other by (vm_compute; intuition discriminate));
    rewrite ?get_set_same, ?get_zero, ?to_bool_of_bool; reflexivity.
Qed.

(** ** Node *)

Lemma AddEdges_snoc calls c n :
  Node.AddEdges (calls ++ [c]) n = Node.AddEdge c.1 c.2 (Node.AddEdges calls n).
Proof. unfold Node.AddEdges. by rewrite foldl_app. Qed.

Lemma AddEdges_edges calls n :
  Node.edges (Node.AddEdges calls n) = Node.edges n ++ calls.*1.
Proof.
  induction calls as [|c calls IH] using rev_ind.
  - by rewrite app_nil_r.
  - rewrite AddEdges_snoc, fmap_app, app_assoc, <- IH. done.
Qed.

Lemma AddEdges_link_edge calls n :
  Node.link_edge (Node.AddEdges calls n) = Node.link_edge n || existsb snd calls.
Proof.
  induction calls as [|c calls IH] using rev_ind.
  - by rewrite orb_false_r.
  - rewrite AddEdges_snoc, existsb_app. simpl. rewrite orb_false_r, orb_assoc, <- IH.
    unfold Node.link_edge, Node.AddEdge. destruct c.2; simpl.
    + by rewrite orb_true_r.
    + by rewrite orb_false_r.
Qed.

Lemma AddEdges_non_link_edge calls n :
  Node.non_link_edge (Node.AddEdges calls n) =
  Node.non_link_edge n || existsb (λ c, negb c.2) calls.
Proof.
  induction calls as [|c calls IH] using rev_ind.
  - by rewrite orb_false_r.
  - rewrite AddEdges_snoc, existsb_app. simpl. rewrite orb_false_r, orb_assoc, <- IH.
    unfold Node.non_link_edge, Node.AddEdge. destruct c.2; simpl.
    + by rewrite orb_false_r.
    + by rewrite orb_true_r.
Qed.

Lemma existsb_calls (f : nat * bool → bool) (calls : list (nat * bool)) :
  existsb f calls = true ↔ ∃ c, c ∈ calls ∧ f c = true.
Proof.
  rewrite existsb_exists. split; intros (c & Hc & Hf); exists c; split; try done.
  - by apply list_elem_of_In.
  - by apply list_elem_of_In.
Qed.

(** C7, as amended.  After any run of [AddEdge] calls on any node,
    [link_edge()] is true exactly when it was true before the calls or
    some added edge had [link = true], and [non_link_edge()] is true
    exactly when it was true before or some added edge had
    [link = false]; on a default-constructed node, whose flags start
    false, each flag is therefore true exactly when an edge of its kind
    was added.  Every call puts its edge index at the end of the list,
    so the added indices follow the earlier ones in call order. *)
Theorem AddEdge_flag_union (n : Node.t) (calls : list (nat * bool)) :
  (Node.link_edge (Node.AddEdges calls n) = true ↔
     Node.link_edge n = true ∨ ∃ c, c ∈ calls ∧ c.2 = true) ∧
  (Node.non_link_edge (Node.AddEdges calls n) = true ↔
     Node.non_link_edge n = true ∨ ∃ c, c ∈ calls ∧ c.2 = false) ∧
  (Node.link_edge (Node.AddEdges calls Node.new) = true ↔
     ∃ c, c ∈ calls ∧ c.2 = true) ∧
  (Node.non_link_edge (Node.AddEdges calls Node.new) = true ↔
     ∃ c, c ∈ calls ∧ c.2 = false) ∧
  Node.edges (Node.AddEdges calls n) = Node.edges n ++ calls.*1 ∧
  (∀ edgeindex link,
     Node.edges (Node.AddEdge edgeindex link n) = Node.edges n ++ [edgeindex]).
Proof.
  assert (Hneg : ∀ cs : list (nat * bool),
             (∃ c, c ∈ cs ∧ negb c.2 = true) ↔ (∃ c, c ∈ cs ∧ c.2 = false)).
  { intros cs. split; intros (c & Hc & Hf); exists c; split; try done.
    - by apply negb_true_iff.
    - by apply negb_true_iff. }
  split_and!.
  - by rewrite AddEdges_link_edge, orb_true_iff, existsb_calls.
  - by rewrite AddEdges_non_link_edge, orb_true_iff,
      (existsb_calls (λ c, negb c.2)), Hneg.
  - rewrite AddEdges_link_edge. simpl. by rewrite existsb_calls.
  - rewrite AddEdges_non_link_edge. simpl.
    by rewrite (existsb_calls (λ c, negb c.2)), Hneg.
  - apply AddEdges_edges.
  - done.
Qed.

(** C7 as stated fails: a node built by the constructor with arguments
    from attributes whose link flag is already set reports a link edge
    although its only edge was added with [link = false]. *)
Lemma AddEdge_flag_union_counterexample :
  ¬ (∀ (n : Node.t) (calls : list (nat * bool)),
       Node.link_edge (Node.AddEdges calls n) = true ↔
       ∃ c, c ∈ calls ∧ c.2 = true).
Proof.
  intros H.
  destruct (H (Node.Mk [] preset_link_attributes) [(7%nat, false)]) as [H1 _].
  destruct (H1 eq_refl) as (c & Hc & Hlink).
  apply list_elem_of_singleton in Hc. by subst c.
Qed.

(** C9.  A default-constructed node has no edges, an edge count of 0 and
    both link flags false; after [n] calls of [AddEdge], with [n] a
    value of the 32-bit return type, [edge_count()] is [n]. *)
Theorem default_node_edge_count (calls : list (nat * bool)) :
  N.of_nat (length calls) < 2 ^ 32 →
  Node.edges Node.new = [] ∧
  Node.edge_count Node.new = 0 ∧
  Node.link_edge Node.new = false ∧
  Node.non_link_edge Node.new = false ∧
  Node.edge_count (Node.AddEdges calls Node.new) = N.of_nat (length calls).
Proof.
  intros Hn. split_and!; try done.
  unfold Node.edge_count. rewrite AddEdges_edges. simpl.
  rewrite length_fmap. by apply N.mod_small.
Qed.

Lemma default_node_edge_count_witness :
  Node.edges Node.new = [] ∧
  Node.edge_count Node.new = 0 ∧
  Node.link_edge Node.new = false ∧
  Node.non_link_edge Node.new = false ∧
  Node.edge_count (Node.AddEdges three_calls Node.new) = 3.
Proof. apply (default_node_edge_count three_calls). reflexivity. Defined.

(** ** Restriction rewriter *)

Lemma translate_restriction_Some nodes r r' :
  translate_restriction nodes r = Some r' ↔
  Forall2 (λ k g, nodes !! k = Some g) r r'.
Proof. apply mapM_Some. Qed.

Lemma translate_restriction_None nodes r :
  translate_restriction nodes r = None ↔ ¬ all_mapped nodes r.
Proof.
  unfold all_mapped, translate_restriction.
  rewrite eq_None_not_Some, mapM_is_Some. done.
Qed.

(** The pass in closed form: the output is the translations that exist,
    in input order, and the counter grows by the number of restrictions
    without one. *)
Lemma update_restrictions_fold nodes rs out q :
  foldl (update_restriction nodes) (out, q) rs =
  (out ++ omap (translate_restriction nodes) rs,
   MkDataQuality
     (restriction_defects q +
      length (filter (λ r, translate_restriction nodes r = None) rs))
     (depth_warnings q)).
Proof.
  revert out q. induction rs as [|r rs IH]; intros out q; simpl.
  - rewrite app_nil_r, Nat.add_0_r. by destruct q.
  - unfold update_restriction at 2. rewrite filter_cons.
    destruct (translate_restriction nodes r) as [r'|] eqn:Hr; simpl.
    + by rewrite IH, <- app_assoc.
    + rewrite IH. simpl. by rewrite Nat.add_succ_r.
Qed.

Lemma UpdateRestrictions_output rs gb :
  (UpdateRestrictions rs gb).1 = omap (translate_restriction (nodes_ gb)) rs.
Proof. unfold UpdateRestrictions. by rewrite update_restrictions_fold. Qed.

Lemma UpdateRestrictions_defects rs gb :
  restriction_defects (stats_ (UpdateRestrictions rs gb).2) =
  (restriction_defects (stats_ gb) +
   length (filter (λ r, translate_restriction (nodes_ gb) r = None) rs))%nat.
Proof. unfold UpdateRestrictions. by rewrite update_restrictions_fold. Qed.

(** C5.  Take any restriction [r] of the input, with [pre] before it and
    [post] after it.  If every endpoint of [r] is in the deduplication
    map, the output has, between what [pre] and [post] contribute, [r]
    with each endpoint replaced by its graph identifier, and the defect
    counter is what it would be without [r].  If some endpoint is
    missing, the output is what it would be without [r], and the defect
    counter is one more than it would be without [r]. *)
Theorem UpdateRestrictions_rewrites (gb : GraphBuilder) (pre post : list (list N))
    (r : list N) :
  let run rs := UpdateRestrictions rs gb in
  let defects rs := restriction_defects (stats_ (run rs).2) in
  (all_mapped (nodes_ gb) r →
     ∃ r', Forall2 (λ k g, nodes_ gb !! k = Some g) r r' ∧
           (run (pre ++ r :: post)).1 = (run pre).1 ++ r' :: (run post).1 ∧
           defects (pre ++ r :: post) = defects (pre ++ post)) ∧
  (¬ all_mapped (nodes_ gb) r →
     (run (pre ++ r :: post)).1 = (run (pre ++ post)).1 ∧
     defects (pre ++ r :: post) = S (defects (pre ++ post))).
Proof.
  cbv zeta beta. rewrite !UpdateRestrictions_output, !UpdateRestrictions_defects.
  rewrite !omap_app, !filter_app, !length_app, filter_cons. simpl. split.
  - intros Hall.
    destruct (translate_restriction (nodes_ gb) r) as [r'|] eqn:Hr.
    + exists r'. split_and!.
      * by apply translate_restriction_Some.
      * done.
      * done.
    + by apply translate_restriction_None in Hr.
  - intros Hnot. apply translate_restriction_None in Hnot as Hr.
    rewrite Hr. simpl. split; [done|lia].
Qed.

(** ** Best non-link class *)

Lemma foldl_min_le (c : N) (cs : list N) : foldl N.min c cs ≤ c.
Proof.
  revert c. induction cs as [|x cs IH]; intros c; simpl; [done|].
  specialize (IH (N.min c x)). lia.
Qed.

Lemma foldl_min_in (c : N) (cs : list N) : foldl N.min c cs ∈ c :: cs.
Proof.
  revert c. induction cs as [|x cs IH]; intros c; simpl.
  - apply elem_of_cons. by left.
  - specialize (IH (N.min c x)).
    apply elem_of_cons in IH as [IH|IH].
    + rewrite IH. destruct (N.min_spec c x) as [[_ ->]|[_ ->]].
      * apply elem_of_cons. by left.
      * apply elem_of_cons. right. apply elem_of_cons. by left.
    + apply elem_of_cons. right. apply elem_of_cons. by right.
Qed.

Lemma foldl_min_lower (c : N) (cs : list N) x :
  x ∈ c :: cs → foldl N.min c cs ≤ x.
Proof.
  revert c. induction cs as [|y cs IH]; intros c Hx; simpl.
  - apply list_elem_of_singleton in Hx. by subst.
  - pose proof (foldl_min_le (N.min c y) cs) as Hle.
    apply elem_of_cons in Hx as [->|Hx]; [lia|].
    apply elem_of_cons in Hx as [->|Hx]; [lia|].
    apply IH. apply elem_of_cons. by right.
Qed.

Lemma elem_of_non_link_classes node edges c :
  c ∈ non_link_classes node edges ↔
  ∃ idx e, idx ∈ Node.edges node ∧ edges !! idx = Some e ∧
           Edge.link (Edge.attributes e) = false ∧
           Edge.importance (Edge.attributes e) = c.
Proof.
  unfold non_link_classes. rewrite list_elem_of_omap. split.
  - intros (idx & Hidx & Hc). destruct (edges !! idx) as [e|] eqn:He; [|done].
    simpl in Hc. destruct (Edge.link (Edge.attributes e)) eqn:Hl; [done|].
    exists idx, e. by simplify_eq.
  - intros (idx & e & Hidx & He & Hl & Hc). exists idx. split; [done|].
    rewrite He. simpl. rewrite Hl. by subst.
Qed.

(** C3.  For a node with at least one incident non-link edge,
    [GetBestNonLinkClass] returns the importance of one of the node's
    incident non-link edges, and no incident non-link edge has a smaller
    importance: it returns their minimum. *)
Theorem GetBestNonLinkClass_minimum (no_class : N) (node : Node.t)
    (edges : list Edge.t) :
  (∃ idx e, idx ∈ Node.edges node ∧ edges !! idx = Some e ∧
            Edge.link (Edge.attributes e) = false) →
  (∃ idx e, idx ∈ Node.edges node ∧ edges !! idx = Some e ∧
            Edge.link (Edge.attributes e) = false ∧
            Edge.importance (Edge.attributes e) =
              GetBestNonLinkClass no_class node edges) ∧
  (∀ idx e, idx ∈ Node.edges node → edges !! idx = Some e →
            Edge.link (Edge.attributes e) = false →
            GetBestNonLinkClass no_class node edges ≤
              Edge.importance (Edge.attributes e)).
Proof.
  intros (idx0 & e0 & Hidx0 & He0 & Hl0).
  assert (Hin : Edge.importance (Edge.attributes e0) ∈ non_link_classes node edges).
  { apply elem_of_non_link_classes. by exists idx0, e0. }
  unfold GetBestNonLinkClass.
  destruct (non_link_classes node edges) as [|c cs] eqn:Hcs.
  { by apply not_elem_of_nil in Hin. }
  split.
  - apply elem_of_non_link_classes. rewrite Hcs. apply foldl_min_in.
  - intros idx e Hidx He Hl. apply foldl_min_lower. rewrite <- Hcs.
    apply elem_of_non_link_classes. by exists idx, e.
Qed.

(** ** Deduplication of nodes *)

Lemma GraphId_eta g : MkGraphId (tileid g) (level g) (index g) = g.
Proof. by destruct g. Qed.

Lemma same_tile_same_index g g' :
  tile_base g = tile_base g' → index g = index g' → g = g'.
Proof. destruct g, g'. unfold tile_base. simpl. by intros [= -> ->] ->. Qed.

Lemma lookup_node_alter f g tiles g' :
  lookup_node (alter (alter f (index g)) (tile_base g) tiles) g' =
  if decide (g' = g) then f <$> lookup_node tiles g else lookup_node tiles g'.
Proof.
  unfold lookup_node. case_decide as Hg.
  - subst g'. rewrite lookup_alter_eq.
    destruct (tiles !! tile_base g) as [tile|]; simpl; [|done].
    apply list_lookup_alter_eq.
  - destruct (decide (tile_base g = tile_base g')) as [Hb|Hb].
    + rewrite <- Hb, lookup_alter_eq.
      destruct (tiles !! tile_base g) as [tile|]; simpl; [|done].
      apply list_lookup_alter_ne. intros Hi. apply Hg.
      by apply same_tile_same_index.
    + by rewrite lookup_alter_ne.
Qed.

Lemma lookup_node_push_old tiles base new g n :
  lookup_node tiles g = Some n →
  lookup_node (<[base := default [] (tiles !! base) ++ [new]]> tiles) g = Some n.
Proof.
  unfold lookup_node. intros Hg.
  destruct (decide (base = tile_base g)) as [->|Hb].
  - rewrite lookup_insert_eq. simpl.
    destruct (tiles !! tile_base g) as [tile|]; simpl in *; [|done].
    by apply lookup_app_l_Some.
  - by rewrite lookup_insert_ne.
Qed.

Lemma lookup_node_push_new tiles t l new :
  let base := MkGraphId t l 0 in
  lookup_node (<[base := default [] (tiles !! base) ++ [new]]> tiles)
              (MkGraphId t l (length (default [] (tiles !! base)))) = Some new.
Proof.
  unfold lookup_node, tile_base. simpl. rewrite lookup_insert_eq. simpl.
  by rewrite list_lookup_middle.
Qed.

Lemma extends_refl gb : extends gb gb.
Proof. split; [done|]. intros g n Hn. by exists n. Qed.

Lemma extends_trans gb1 gb2 gb3 :
  extends gb1 gb2 → extends gb2 gb3 → extends gb1 gb3.
Proof.
  intros [Hm1 Hn1] [Hm2 Hn2]. split; [by auto|].
  intros g n Hn. destruct (Hn1 g n Hn) as (n' & Hn' & Hp).
  destruct (Hn2 g n' Hn') as (n'' & Hn'' & Hp').
  exists n''. split; [done|]. by etrans.
Qed.

Section DedupProofs.
Context {PointLL : Type}.
Variable tile_of : PointLL → nat → nat.

(** A reference to a source node that the map already has. *)
Lemma reference_node_known gb k on e l g :
  dedup_wf gb → nodes_ gb !! k = Some g →
  let r := reference_node tile_of k on e l gb in
  r.1 = g ∧ nodes_ r.2 = nodes_ gb ∧ tile_sizes r.2 = tile_sizes gb ∧
  dedup_wf r.2 ∧ extends gb r.2 ∧
  ∃ n, GetNode r.2 g = Some n ∧ e ∈ Node.edges n.
Proof.
  intros Hwf Hk. unfold reference_node. rewrite Hk. simpl.
  assert (Hget : ∀ g', GetNode (add_edge_at g e l gb) g' =
            if decide (g' = g) then Node.AddEdge e l <$> GetNode gb g
            else GetNode gb g').
  { intros g'. unfold GetNode, add_edge_at. simpl. apply lookup_node_alter. }
  split_and!; try done.
  - unfold tile_sizes, add_edge_at. simpl. apply map_eq. intros b.
    rewrite !lookup_fmap.
    destruct (decide (b = tile_base g)) as [->|Hb].
    + rewrite lookup_alter_eq.
      destruct (tilednodes_ gb !! tile_base g); simpl; [|done].
      by rewrite length_alter.
    + by rewrite lookup_alter_ne.
  - intros k' g' Hk'. rewrite Hget. case_decide as Hg.
    + subst g'. destruct (Hwf k g Hk) as [n ->]. by eexists.
    + by apply (Hwf k').
  - split; [done|]. intros g' n Hn. rewrite Hget. case_decide as Hg.
    + subst g'. rewrite Hn. eexists. split; [done|].
      simpl. by apply prefix_app_r.
    + by exists n.
  - destruct (Hwf k g Hk) as [n Hn]. rewrite Hget, decide_True, Hn by done.
    eexists. split; [done|]. simpl. set_solver.
Qed.

(** A reference to a source node that the map does not have yet. *)
Lemma reference_node_fresh gb k on e l :
  dedup_wf gb → nodes_ gb !! k = None →
  let r := reference_node tile_of k on e l gb in
  nodes_ r.2 !! k = Some r.1 ∧ dedup_wf r.2 ∧ extends gb r.2 ∧
  ∃ n, GetNode r.2 r.1 = Some n ∧ e ∈ Node.edges n.
Proof.
  intros Hwf Hk. unfold reference_node. rewrite Hk.
  unfold AddNodeToTile, GetNode. simpl.
  set (base := MkGraphId (tile_of (latlng on) (level_ gb)) (level_ gb) 0).
  set (new := Node.make (osm_attributes on) e l).
  set (g := MkGraphId _ _ (length _)).
  assert (Hnew : lookup_node
            (<[base := default [] (tilednodes_ gb !! base) ++ [new]]>
               (tilednodes_ gb)) g = Some new).
  { apply lookup_node_push_new. }
  split_and!.
  - apply lookup_insert_eq.
  - intros k' g' Hk'. unfold GetNode. simpl in *.
    destruct (decide (k = k')) as [->|Hne].
    + rewrite lookup_insert_eq in Hk'. simplify_eq. by rewrite Hnew.
    + rewrite lookup_insert_ne in Hk' by done.
      destruct (Hwf k' g' Hk') as [n Hn]. exists n.
      by apply lookup_node_push_old.
  - split.
    + intros k' g' Hk'. simpl.
      rewrite lookup_insert_ne; [done|]. intros ->. congruence.
    + intros g' n Hn. exists n. split; [|done].
      unfold GetNode. simpl. by apply lookup_node_push_old.
  - exists new. split; [done|]. simpl. set_solver.
Qed.

(** Either way the map has the source node afterwards, at the returned
    identifier, and the node there has the edge. *)
Lemma reference_node_after gb k on e l :
  dedup_wf gb →
  let r := reference_node tile_of k on e l gb in
  nodes_ r.2 !! k = Some r.1 ∧ dedup_wf r.2 ∧ extends gb r.2 ∧
  ∃ n, GetNode r.2 r.1 = Some n ∧ e ∈ Node.edges n.
Proof.
  intros Hwf. destruct (nodes_ gb !! k) as [g|] eqn:Hk.
  - destruct (reference_node_known gb k on e l g Hwf Hk)
      as (Hg & Hm & _ & Hwf' & Hext & Hn).
    cbv zeta. rewrite Hg, Hm. done.
  - by apply reference_node_fresh.
Qed.

Lemma reference_nodes_after refs gb :
  dedup_wf gb →
  dedup_wf (reference_nodes tile_of refs gb) ∧
  extends gb (reference_nodes tile_of refs gb).
Proof.
  revert gb. induction refs as [|r refs IH]; intros gb Hwf; simpl.
  - split; [done|apply extends_refl].
  - destruct (reference_node_after gb r.1.1.1 r.1.1.2 r.1.2 r.2 Hwf)
      as (_ & Hwf' & Hext & _).
    destruct (IH _ Hwf') as [Hwf'' Hext'].
    split; [done|]. by eapply extends_trans.
Qed.

End DedupProofs.

Lemma dedup_wf_empty lvl : dedup_wf (empty_builder lvl).
Proof. intros k g Hk. simpl in Hk. by rewrite lookup_empty in Hk. Qed.

(** C1.  A source node is referenced with edge [e1], then, after any
    other references, again with edge [e2], and any references follow.
    Both references return the same graph identifier; the second one
    allocates nothing: it leaves the deduplication map and the number of
    nodes of every tile as they were; and at the end the map still sends
    the source node to that one identifier, whose node has both [e1] and
    [e2] in its edge list. *)
Theorem dedup_one_identifier {PointLL : Type} (tile_of : PointLL → nat → nat)
    (gb : GraphBuilder) (k : N) (n1 n2 : OSMNode) (e1 e2 : nat) (l1 l2 : bool)
    (mid post : list (N * OSMNode * nat * bool)) :
  dedup_wf gb →
  let r1 := reference_node tile_of k n1 e1 l1 gb in
  let gb2 := reference_nodes tile_of mid r1.2 in
  let r2 := reference_node tile_of k n2 e2 l2 gb2 in
  let final := reference_nodes tile_of post r2.2 in
  r2.1 = r1.1 ∧
  nodes_ r2.2 = nodes_ gb2 ∧
  tile_sizes r2.2 = tile_sizes gb2 ∧
  nodes_ final !! k = Some r1.1 ∧
  ∃ node, GetNode final r1.1 = Some node ∧
          e1 ∈ Node.edges node ∧ e2 ∈ Node.edges node.
Proof.
  intros Hwf r1 gb2 r2 final.
  destruct (reference_node_after tile_of gb k n1 e1 l1 Hwf)
    as (Hk1 & Hwf1 & _ & node1 & Hnode1 & He1).
  fold r1 in Hk1, Hwf1, Hnode1.
  destruct (reference_nodes_after tile_of mid r1.2 Hwf1) as [Hwf2 [Hm2 Hn2]].
  fold gb2 in Hwf2, Hm2, Hn2.
  destruct (Hn2 _ _ Hnode1) as (node2 & Hnode2 & Hpre2).
  destruct (reference_node_known tile_of gb2 k n2 e2 l2 r1.1 Hwf2 (Hm2 _ _ Hk1))
    as (Hg & Hm & Hsz & Hwf3 & [Hm3 Hn3] & node3 & Hnode3 & He2).
  fold r2 in Hg, Hm, Hsz, Hwf3, Hm3, Hn3, Hnode3.
  destruct (Hn3 _ _ Hnode2) as (node3' & Hnode3' & Hpre3).
  assert (node3' = node3) as -> by congruence.
  destruct (reference_nodes_after tile_of post r2.2 Hwf3) as [_ [Hm4 Hn4]].
  fold final in Hm4, Hn4.
  destruct (Hn4 _ _ Hnode3) as (node4 & Hnode4 & Hpre4).
  split_and!; try done.
  - apply Hm4, Hm3, Hm2, Hk1.
  - exists node4. split_and!; [done| |].
    + eapply elem_of_prefix; [|exact Hpre4].
      eapply elem_of_prefix; [|exact Hpre3].
      eapply elem_of_prefix; [exact He1|exact Hpre2].
    + eapply elem_of_prefix; [exact He2|exact Hpre4].
Qed.

Lemma dedup_one_identifier_witness :
  let gb := empty_builder 2 in
  let r1 := reference_node sample_tile_of 77 (sample_osmnode 31) 0 false gb in
  let gb2 := reference_nodes sample_tile_of
               [(78, sample_osmnode 35, 0%nat, false)] r1.2 in
  let r2 := reference_node sample_tile_of 77 (sample_osmnode 31) 1 true gb2 in
  let final := reference_nodes sample_tile_of [] r2.2 in
  r2.1 = r1.1 ∧
  nodes_ r2.2 = nodes_ gb2 ∧
  tile_sizes r2.2 = tile_sizes gb2 ∧
  nodes_ final !! 77 = Some r1.1 ∧
  ∃ node, GetNode final r1.1 = Some node ∧
          0%nat ∈ Node.edges node ∧ 1%nat ∈ Node.edges node.
Proof.
  apply (dedup_one_identifier sample_tile_of (empty_builder 2) 77
           (sample_osmnode 31) (sample_osmnode 31) 0 1 false true
           [(78, sample_osmnode 35, 0%nat, false)] []).
  apply dedup_wf_empty.
Defined.

(** ** make_edge *)

(** C8.  For every way whose road class is one of the ranks of the
    3-bit importance field, the edge [make_edge] builds has the three
    signal flags false, the spare bits zero and a default target node;
    the shape-point count is 1, and importance, the two driveable flags
    and the link flag are those of the way.  Source node, way index and
    coordinate index are the arguments. *)
Theorem make_edge_fields (d s : GraphId) (w l : N) (way : OSMWay) :
  road_class way < 8 →
  let e := Edge.make_edge d s w l way in
  let a := Edge.attributes e in
  Edge.traffic_signal a = false ∧
  Edge.forward_signal a = false ∧
  Edge.backward_signal a = false ∧
  Edge.spare a = 0 ∧
  Edge.targetnode_ e = d ∧
  Edge.llcount a = 1 ∧
  Edge.importance a = road_class way ∧
  Edge.driveableforward a = auto_forward way ∧
  Edge.driveablereverse a = auto_backward way ∧
  Edge.link a = way_link way ∧
  Edge.sourcenode_ e = s ∧ Edge.wayindex_ e = w ∧ Edge.llindex_ e = l.
Proof.
  intros Hrc e a.
  destruct (make_edge_attributes d s w l way)
    as (Hll & Himp & Hf & Hr & Ht & Hfs & Hbs & Hl & Hsp).
  fold e a in Hll, Himp, Hf, Hr, Ht, Hfs, Hbs, Hl, Hsp.
  split_and!; try done.
  rewrite Himp. by apply N.mod_small.
Qed.

Lemma make_edge_fields_witness :
  let e := Edge.make_edge sample_default (MkGraphId 5 2 1) 12 40 sample_way in
  let a := Edge.attributes e in
  Edge.traffic_signal a = false ∧
  Edge.forward_signal a = false ∧
  Edge.backward_signal a = false ∧
  Edge.spare a = 0 ∧
  Edge.targetnode_ e = sample_default ∧
  Edge.llcount a = 1 ∧
  Edge.importance a = 4 ∧
  Edge.driveableforward a = true ∧
  Edge.driveablereverse a = false ∧
  Edge.link a = true ∧
  Edge.sourcenode_ e = MkGraphId 5 2 1 ∧ Edge.wayindex_ e = 12 ∧
  Edge.llindex_ e = 40.
Proof.
  apply (make_edge_fields sample_default (MkGraphId 5 2 1) 12 40 sample_way).
  reflexivity.
Defined.

(** C10.  A store into a field of the attribute word keeps the value
    modulo two to the width of the field, whatever the field: importance
    is kept modulo 8 and the shape-point count modulo 2^16.  So the
    importance of the edge [make_edge] builds is the way's road class
    modulo 8. *)
Theorem bitfield_truncation :
  (∀ off w v a, Bits.get off w (Bits.set off w v a) = v mod 2 ^ w) ∧
  (∀ v a, Edge.importance (Edge.set_importance v a) = v mod 8) ∧
  (∀ v a, Edge.llcount (Edge.set_llcount v a) = v mod 2 ^ 16) ∧
  (∀ d s w l way,
     Edge.importance (Edge.attributes (Edge.make_edge d s w l way)) =
     road_class way mod 8).
Proof.
  split_and!.
  - apply get_set_same.
  - apply importance_set_importance.
  - apply llcount_set_llcount.
  - intros d s w l way. by destruct (make_edge_attributes d s w l way) as (_ & -> & _).
Qed.

(** ** Link reclassifier: what a walk reads *)

Lemma with_attributes_twice a a' e :
  Edge.with_attributes a (Edge.with_attributes a' e) = Edge.with_attributes a e.
Proof. done. Qed.

Lemma with_attributes_same e : Edge.with_attributes (Edge.attributes e) e = e.
Proof. by destruct e. Qed.

Lemma skeleton_link e :
  Edge.link (Edge.attributes (skeleton e)) = Edge.link (Edge.attributes e).
Proof.
  unfold skeleton. destruct (Edge.link (Edge.attributes e)) eqn:Hl; [|done].
  simpl. by rewrite link_set_importance.
Qed.

Lemma skeleton_sourcenode e : Edge.sourcenode_ (skeleton e) = Edge.sourcenode_ e.
Proof. unfold skeleton. by destruct (Edge.link _). Qed.

Lemma skeleton_targetnode e : Edge.targetnode_ (skeleton e) = Edge.targetnode_ e.
Proof. unfold skeleton. by destruct (Edge.link _). Qed.

Lemma skeleton_non_link e :
  Edge.link (Edge.attributes e) = false → skeleton e = e.
Proof. unfold skeleton. by intros ->. Qed.

Lemma skeleton_lower rc e :
  Edge.link (Edge.attributes e) = true → skeleton (lower_importance rc e) = skeleton e.
Proof.
  intros Hl. unfold skeleton, lower_importance. simpl.
  rewrite link_set_importance, Hl. by rewrite set_importance_twice.
Qed.

(** Two edges with one skeleton agree on what a walk reads. *)
Lemma skeleton_eq_reads e e' :
  skeleton e = skeleton e' →
  Edge.link (Edge.attributes e) = Edge.link (Edge.attributes e') ∧
  Edge.sourcenode_ e = Edge.sourcenode_ e' ∧
  Edge.targetnode_ e = Edge.targetnode_ e' ∧
  (Edge.link (Edge.attributes e) = false → e = e').
Proof.
  intros Hs.
  assert (Hl : Edge.link (Edge.attributes e) = Edge.link (Edge.attributes e')).
  { by rewrite <- (skeleton_link e), Hs, skeleton_link. }
  split_and!.
  - done.
  - by rewrite <- (skeleton_sourcenode e), Hs, skeleton_sourcenode.
  - by rewrite <- (skeleton_targetnode e), Hs, skeleton_targetnode.
  - intros Hf. rewrite <- (skeleton_non_link e), Hs by done.
    apply skeleton_non_link. congruence.
Qed.

Lemma same_skeleton_refl es : same_skeleton es es.
Proof. done. Qed.

Lemma same_skeleton_sym es es' : same_skeleton es es' → same_skeleton es' es.
Proof. done. Qed.

Lemma same_skeleton_trans es1 es2 es3 :
  same_skeleton es1 es2 → same_skeleton es2 es3 → same_skeleton es1 es3.
Proof. unfold same_skeleton. congruence. Qed.

Lemma same_skeleton_lookup es es' i :
  same_skeleton es es' →
  match es !! i, es' !! i with
  | Some e, Some e' => skeleton e = skeleton e'
  | None, None => True
  | _, _ => False
  end.
Proof.
  intros Hs. assert (H := f_equal (.!! i) Hs). simpl in H.
  rewrite !list_lookup_fmap in H.
  destruct (es !! i), (es' !! i); simpl in H; by simplify_eq.
Qed.

Lemma same_skeleton_length es es' :
  same_skeleton es es' → length es = length es'.
Proof. intros Hs. by rewrite <- (length_fmap skeleton es), Hs, length_fmap. Qed.

Lemma is_link_same es es' idx :
  same_skeleton es es' → is_link es idx = is_link es' idx.
Proof.
  intros Hs. unfold is_link. assert (H := same_skeleton_lookup es es' idx Hs).
  destruct (es !! idx), (es' !! idx); try done.
  by apply skeleton_eq_reads in H as (? & _).
Qed.

Lemma non_link_classes_same es es' node :
  same_skeleton es es' → non_link_classes node es = non_link_classes node es'.
Proof.
  intros Hs. unfold non_link_classes. apply list_omap_ext.
  apply Forall2_same_length_lookup. split; [done|].
  intros i idx idx' Hi Hi'. assert (idx' = idx) as -> by congruence.
  assert (H := same_skeleton_lookup es es' idx Hs).
  destruct (es !! idx) as [e|], (es' !! idx) as [e'|]; try done.
  apply skeleton_eq_reads in H as (Hl & _ & _ & He). cbn.
  rewrite <- Hl. destruct (Edge.link (Edge.attributes e)); [done|].
  by rewrite <- (He eq_refl).
Qed.

Lemma GetBestNonLinkClass_same no_class es es' node :
  same_skeleton es es' →
  GetBestNonLinkClass no_class node es = GetBestNonLinkClass no_class node es'.
Proof.
  intros Hs. unfold GetBestNonLinkClass.
  by rewrite (non_link_classes_same es es' node Hs).
Qed.

Lemma next_link_same es es' n arrived :
  same_skeleton es es' → next_link es n arrived = next_link es' n arrived.
Proof.
  intros Hs. unfold next_link.
  induction (Node.edges n) as [|i l IH]; [done|].
  simpl. by rewrite IH, (is_link_same es es' i Hs).
Qed.

Lemma other_end_same e e' from :
  skeleton e = skeleton e' → other_end e from = other_end e' from.
Proof.
  intros (_ & Hsrc & Htgt & _)%skeleton_eq_reads.
  unfold other_end. by rewrite Hsrc, Htgt.
Qed.

Lemma walk_same no_class tiles es es' depth from idx chain :
  same_skeleton es es' →
  walk no_class tiles es depth from idx chain =
  walk no_class tiles es' depth from idx chain.
Proof.
  intros Hs. revert from idx chain.
  induction depth as [|depth IH]; intros from idx chain; [done|].
  simpl. assert (H := same_skeleton_lookup es es' idx Hs).
  destruct (es !! idx) as [e|], (es' !! idx) as [e'|]; try done.
  rewrite <- (other_end_same e e' from H).
  destruct (lookup_node tiles (other_end e from)) as [n|]; [|done].
  rewrite (GetBestNonLinkClass_same no_class es es' n Hs).
  rewrite (next_link_same es es' n idx Hs).
  destruct (Node.non_link_edge n); [done|].
  destruct (next_link es' n idx); [|done]. apply IH.
Qed.

(** The edges of a chain whose other end is found are link edges. *)
Lemma next_link_is_link es n arrived idx :
  next_link es n arrived = Some idx → is_link es idx = true.
Proof.
  unfold next_link. intros H. apply find_some in H as [_ H].
  by apply andb_true_iff in H as [_ H].
Qed.

Lemma walk_found_links no_class tiles es depth from idx acc chain c :
  is_link es idx = true →
  walk no_class tiles es depth from idx acc = Found chain c →
  ∃ ext, chain = acc ++ ext ∧ Forall (λ i, is_link es i = true) ext.
Proof.
  revert from idx acc.
  induction depth as [|depth IH]; intros from idx acc Hl; [done|].
  simpl. destruct (es !! idx) as [e|]; [|done].
  destruct (lookup_node tiles (other_end e from)) as [n|]; [|done].
  destruct (Node.non_link_edge n).
  - intros [= <- <-]. exists [idx]. split; [done|]. by constructor.
  - destruct (next_link es n idx) as [idx'|] eqn:Hnext; [|done].
    intros Hw. apply IH in Hw as (ext & -> & Hext).
    + exists (idx :: ext). split; [by rewrite <- app_assoc|]. by constructor.
    + by eapply next_link_is_link.
Qed.

(** ** Link reclassifier: what an update changes *)

Lemma same_skeleton_alter_lower es rc i :
  is_link es i = true → same_skeleton es (alter (lower_importance rc) i es).
Proof.
  intros Hl. unfold same_skeleton. apply list_eq. intros j.
  rewrite !list_lookup_fmap.
  destruct (decide (i = j)) as [<-|Hne].
  - rewrite list_lookup_alter_eq. unfold is_link in Hl.
    destruct (es !! i) as [e|]; [|done]. simpl. by rewrite skeleton_lower.
  - by rewrite list_lookup_alter_ne.
Qed.

Lemma same_skeleton_apply_updates us es :
  Forall (λ u, is_link es u.1 = true) us →
  same_skeleton es (apply_updates us es).
Proof.
  revert es. induction us as [|u us IH]; intros es Hus; [done|].
  inversion_clear Hus as [|? ? Hu Hrest]. simpl.
  assert (Hstep := same_skeleton_alter_lower es u.2 u.1 Hu).
  eapply same_skeleton_trans; [exact Hstep|]. apply IH.
  eapply Forall_impl; [exact Hrest|]. intros v Hv. simpl in Hv.
  by rewrite <- (is_link_same _ _ _ Hstep).
Qed.

Lemma apply_updates_app us vs es :
  apply_updates (us ++ vs) es = apply_updates vs (apply_updates us es).
Proof. unfold apply_updates. by rewrite foldl_app. Qed.

Lemma lower_chain_updates rc chain es :
  lower_chain rc chain es = apply_updates ((λ i, (i, rc)) <$> chain) es.
Proof.
  unfold lower_chain, apply_updates. revert es.
  induction chain as [|i chain IH]; intros es; [done|]. simpl. apply IH.
Qed.

(** An update list works on every edge by itself. *)
Lemma apply_updates_lookup us es i :
  apply_updates us es !! i = lower_all us i <$> es !! i.
Proof.
  revert es. induction us as [|u us IH]; intros es; simpl.
  - by destruct (es !! i).
  - rewrite IH. destruct (decide (u.1 = i)) as [<-|Hne].
    + rewrite list_lookup_alter_eq. destruct (es !! u.1); [|done]. simpl.
      unfold lower_all. simpl. by rewrite decide_True.
    + rewrite list_lookup_alter_ne by done. destruct (es !! i); [|done]. simpl.
      unfold lower_all. simpl. by rewrite decide_False.
Qed.

Lemma apply_updates_length us es : length (apply_updates us es) = length es.
Proof.
  revert es. induction us as [|u us IH]; intros es; [done|].
  simpl. by rewrite IH, length_alter.
Qed.

Lemma importance_lower rc e :
  Edge.importance (Edge.attributes (lower_importance rc e)) =
  N.min (Edge.importance (Edge.attributes e)) rc.
Proof.
  unfold lower_importance. simpl. rewrite importance_set_importance.
  apply N.mod_small. pose proof (importance_lt (Edge.attributes e)). lia.
Qed.

(** The updates of one edge in closed form: its importance becomes the
    smallest of its value and the classes the updates lower it to. *)
Lemma lower_all_closed us i e :
  lower_all us i e =
  Edge.with_attributes
    (Edge.set_importance
       (foldl N.min (Edge.importance (Edge.attributes e)) (classes_for us i))
       (Edge.attributes e)) e.
Proof.
  unfold lower_all, classes_for. revert e.
  induction us as [|u us IH]; intros e; simpl.
  - by rewrite set_importance_same, with_attributes_same.
  - rewrite filter_cons. destruct (decide (u.1 = i)) as [Hu|Hu].
    + rewrite IH, importance_lower. simpl.
      unfold lower_importance. simpl.
      by rewrite set_importance_twice.
    + apply IH.
Qed.

Lemma foldl_min_twice (c : N) (cs : list N) :
  foldl N.min (foldl N.min c cs) cs = foldl N.min c cs.
Proof.
  assert (H : ∀ m, Forall (λ x, m ≤ x) cs → foldl N.min m cs = m).
  { induction cs as [|x cs' IH]; intros m Hm; [done|].
    apply Forall_cons in Hm as [Hx Hm]. simpl.
    rewrite N.min_l by done. by apply IH. }
  apply H. apply Forall_forall. intros x Hx.
  apply foldl_min_lower. set_solver.
Qed.

Lemma lower_all_twice us i e : lower_all us i (lower_all us i e) = lower_all us i e.
Proof.
  rewrite (lower_all_closed us i (lower_all us i e)).
  rewrite (lower_all_closed us i e). simpl.
  rewrite importance_set_importance, set_importance_twice.
  rewrite N.mod_small.
  - by rewrite foldl_min_twice.
  - pose proof (importance_lt (Edge.attributes e)).
    pose proof (foldl_min_le (Edge.importance (Edge.attributes e)) (classes_for us i)).
    change (2 ^ 3) with 8. lia.
Qed.

Lemma apply_updates_twice us es :
  apply_updates us (apply_updates us es) = apply_updates us es.
Proof.
  apply list_eq. intros i. rewrite !apply_updates_lookup.
  destruct (es !! i); [|done]. simpl. by rewrite lower_all_twice.
Qed.

Lemma lower_all_untouched us i e : i ∉ us.*1 → lower_all us i e = e.
Proof.
  unfold lower_all. revert e. induction us as [|u us IH]; intros e Hi; [done|].
  rewrite fmap_cons, not_elem_of_cons in Hi. destruct Hi as [Hne Hi].
  simpl. rewrite decide_False by done. by apply IH.
Qed.

(** ** Link reclassifier: the pass in closed form *)

Lemma add_depth_warnings_0 q : add_depth_warnings 0 q = q.
Proof. by destruct q. Qed.

Lemma add_depth_warnings_1 q : add_depth_warnings 1 q = add_depth_warning q.
Proof. done. Qed.

Lemma add_depth_warnings_add a b q :
  add_depth_warnings b (add_depth_warnings a q) = add_depth_warnings (a + b) q.
Proof. unfold add_depth_warnings. simpl. f_equal. lia. Qed.

(** A fold of steps, each of which applies updates and adds warnings
    that are read off [es0], applies all the updates and adds all the
    warnings. *)
Lemma fold_updates {X : Type}
    (step : list Edge.t * DataQuality → X → list Edge.t * DataQuality)
    (U : X → list (nat * N)) (W : X → nat) (es0 : list Edge.t) :
  (∀ es q x, same_skeleton es0 es →
     step (es, q) x = (apply_updates (U x) es, add_depth_warnings (W x) q)) →
  (∀ x, Forall (λ u, is_link es0 u.1 = true) (U x)) →
  ∀ xs es q, same_skeleton es0 es →
    foldl step (es, q) xs =
    (apply_updates (xs ≫= U) es, add_depth_warnings (sum_list (W <$> xs)) q).
Proof.
  intros Hstep Hlinks xs. induction xs as [|x xs IH]; intros es q Hs; simpl.
  - by rewrite add_depth_warnings_0.
  - rewrite Hstep by done. rewrite IH.
    + by rewrite apply_updates_app, add_depth_warnings_add.
    + eapply same_skeleton_trans; [exact Hs|].
      apply same_skeleton_apply_updates.
      eapply Forall_impl; [apply (Hlinks x)|]. intros u Hu. simpl in Hu.
      by rewrite <- (is_link_same _ _ _ Hs).
Qed.

Lemma Forall_bind_links {X : Type} (U : X → list (nat * N)) (P : nat * N → Prop)
    (xs : list X) :
  (∀ x, Forall P (U x)) → Forall P (xs ≫= U).
Proof.
  intros HU. induction xs as [|x xs IH]; simpl; [done|].
  apply Forall_app. split; [apply HU|done].
Qed.

Section PassProofs.
Variable no_class : N.
Variable max_depth : nat.
Variable tiles : gmap GraphId (list Node.t).
Variable es0 : list Edge.t.

Lemma chain_updates_links from best idx :
  Forall (λ u, is_link es0 u.1 = true)
         (chain_updates no_class max_depth tiles es0 from best idx).
Proof.
  unfold chain_updates. destruct (is_link es0 idx) eqn:Hl; [|done].
  destruct (walk no_class tiles es0 max_depth from idx []) as [chain c| |] eqn:Hw;
    [|done|done].
  apply walk_found_links in Hw as (ext & -> & Hext); [|done].
  simpl. apply Forall_fmap. eapply Forall_impl; [exact Hext|]. done.
Qed.

Lemma reclassify_chain_closed from best es q idx :
  same_skeleton es0 es →
  reclassify_chain no_class max_depth tiles from best (es, q) idx =
  (apply_updates (chain_updates no_class max_depth tiles es0 from best idx) es,
   add_depth_warnings (chain_warnings no_class max_depth tiles es0 from idx) q).
Proof.
  intros Hs. unfold reclassify_chain, chain_updates, chain_warnings. simpl.
  rewrite <- (is_link_same _ _ idx Hs).
  rewrite <- (walk_same no_class tiles es0 es max_depth from idx [] Hs).
  destruct (is_link es0 idx).
  - destruct (walk no_class tiles es0 max_depth from idx []); simpl.
    + by rewrite lower_chain_updates, add_depth_warnings_0.
    + done.
    + by rewrite add_depth_warnings_0.
  - by rewrite add_depth_warnings_0.
Qed.

Lemma node_updates_links gn :
  Forall (λ u, is_link es0 u.1 = true)
         (node_updates no_class max_depth tiles es0 gn).
Proof.
  unfold node_updates. destruct (_ && _); [|done].
  apply Forall_bind_links. intros idx. apply chain_updates_links.
Qed.

Lemma reclassify_node_closed es q gn :
  same_skeleton es0 es →
  reclassify_node no_class max_depth tiles (es, q) gn =
  (apply_updates (node_updates no_class max_depth tiles es0 gn) es,
   add_depth_warnings (node_warnings no_class max_depth tiles es0 gn) q).
Proof.
  intros Hs. unfold reclassify_node, node_updates, node_warnings. simpl.
  destruct (_ && _).
  - rewrite <- (GetBestNonLinkClass_same no_class es0 es gn.2 Hs).
    apply (fold_updates _ _ _ es0); [|intros; apply chain_updates_links|done].
    intros es' q' idx Hs'. by apply reclassify_chain_closed.
  - by rewrite add_depth_warnings_0.
Qed.

Lemma pass_updates_links :
  Forall (λ u, is_link es0 u.1 = true)
         (pass_updates no_class max_depth tiles es0).
Proof. apply Forall_bind_links. intros gn. apply node_updates_links. Qed.

Lemma reclassify_pass_closed es q :
  same_skeleton es0 es →
  foldl (reclassify_node no_class max_depth tiles) (es, q) (all_nodes tiles) =
  (apply_updates (pass_updates no_class max_depth tiles es0) es,
   add_depth_warnings (pass_warnings no_class max_depth tiles es0) q).
Proof.
  intros Hs.
  apply (fold_updates _ _ _ es0); [|intros; apply node_updates_links|done].
  intros es' q' gn Hs'. by apply reclassify_node_closed.
Qed.

End PassProofs.

(** The updates of a pass depend on the skeleton of the edges only. *)
Lemma pass_updates_same no_class max_depth tiles es es' :
  same_skeleton es es' →
  pass_updates no_class max_depth tiles es =
  pass_updates no_class max_depth tiles es'.
Proof.
  intros Hs. unfold pass_updates. apply list_bind_ext; [|done].
  intros gn. unfold node_updates. destruct (_ && _); [|done].
  rewrite (GetBestNonLinkClass_same no_class es es' gn.2 Hs).
  apply list_bind_ext; [|done].
  intros idx. unfold chain_updates.
  by rewrite (is_link_same es es' idx Hs),
    (walk_same no_class tiles es es' max_depth gn.1 idx [] Hs).
Qed.

(** What the pass leaves in the builder. *)
Lemma ReclassifyLinks_closed no_class max_depth gb :
  ReclassifyLinks no_class max_depth gb =
  with_edges_stats
    (apply_updates (pass_updates no_class max_depth (tilednodes_ gb) (edges_ gb))
                   (edges_ gb))
    (add_depth_warnings
       (pass_warnings no_class max_depth (tilednodes_ gb) (edges_ gb))
       (stats_ gb))
    gb.
Proof.
  unfold ReclassifyLinks.
  by rewrite (reclassify_pass_closed no_class max_depth (tilednodes_ gb)
                (edges_ gb) (edges_ gb) (stats_ gb)).
Qed.

(** C2.  Running the link reclassifier on what a first run left gives
    the very same edge sequence, so every edge has the importance it
    had after the first run. *)
Theorem ReclassifyLinks_idempotent (no_class : N) (max_depth : nat)
    (gb : GraphBuilder) :
  let once := ReclassifyLinks no_class max_depth gb in
  let twice := ReclassifyLinks no_class max_depth once in
  edges_ twice = edges_ once ∧
  (∀ i, (λ e, Edge.importance (Edge.attributes e)) <$> edges_ twice !! i =
        (λ e, Edge.importance (Edge.attributes e)) <$> edges_ once !! i).
Proof.
  intros once twice.
  assert (Heq : edges_ twice = edges_ once); [|by rewrite Heq].
  unfold twice, once. rewrite !ReclassifyLinks_closed. simpl.
  set (es0 := edges_ gb). set (tiles := tilednodes_ gb).
  set (us := pass_updates no_class max_depth tiles es0).
  assert (Hs : same_skeleton es0 (apply_updates us es0)).
  { apply same_skeleton_apply_updates, pass_updates_links. }
  rewrite <- (pass_updates_same no_class max_depth tiles _ _ Hs).
  apply apply_updates_twice.
Qed.

(** ** Link reclassifier: depth bound and frame *)

Lemma walk_exhausted no_class tiles es depth from idx acc :
  chain_continues tiles es depth from idx →
  walk no_class tiles es depth from idx acc = Exhausted.
Proof.
  revert from idx acc. induction depth as [|depth IH]; intros from idx acc; [done|].
  intros (e & n & idx' & He & Hn & Hnl & Hnext & Hrest). simpl.
  rewrite He, Hn, Hnl, Hnext. by apply IH.
Qed.

Lemma sum_list_elem_le {X : Type} (f : X → nat) (x : X) (xs : list X) :
  x ∈ xs → (f x ≤ sum_list (f <$> xs))%nat.
Proof.
  induction xs as [|y xs IH]; intros Hx.
  - by apply elem_of_nil in Hx.
  - rewrite fmap_cons. change (sum_list (f y :: (f <$> xs)))
      with (f y + sum_list (f <$> xs))%nat.
    apply elem_of_cons in Hx as [->|Hx]; [lia|].
    specialize (IH Hx). lia.
Qed.

(** A chain of the pass that runs out of depth is counted. *)
Lemma pass_warnings_exhausted no_class max_depth tiles es g n idx :
  junction_chain tiles es g n idx →
  walk no_class tiles es max_depth g idx [] = Exhausted →
  (1 ≤ pass_warnings no_class max_depth tiles es)%nat.
Proof.
  intros (Hgn & Hl & Hnl & Hidx & Hlink) Hw. unfold pass_warnings.
  etrans; [|apply (sum_list_elem_le _ (g, n)); exact Hgn].
  unfold node_warnings. simpl. rewrite Hl, Hnl. simpl.
  etrans; [|apply (sum_list_elem_le _ idx); exact Hidx].
  unfold chain_warnings. by rewrite Hlink, Hw.
Qed.

(** An index the pass updates is on a chain of the pass whose other end
    was found. *)
Lemma pass_updates_chain no_class max_depth tiles es i :
  i ∈ (pass_updates no_class max_depth tiles es).*1 →
  ∃ g n idx chain c,
    junction_chain tiles es g n idx ∧
    walk no_class tiles es max_depth g idx [] = Found chain c ∧ i ∈ chain.
Proof.
  intros Hi. apply list_elem_of_fmap in Hi as (u & -> & Hu).
  unfold pass_updates in Hu.
  apply list_elem_of_bind in Hu as ([g n] & Hu & Hgn).
  unfold node_updates in Hu. simpl in Hu.
  destruct (Node.link_edge n) eqn:Hl; [|by apply elem_of_nil in Hu].
  destruct (Node.non_link_edge n) eqn:Hnl; [|by apply elem_of_nil in Hu].
  simpl in Hu. apply list_elem_of_bind in Hu as (idx & Hu & Hidx).
  unfold chain_updates in Hu.
  destruct (is_link es idx) eqn:Hlink; [|by apply elem_of_nil in Hu].
  destruct (walk no_class tiles es max_depth g idx []) as [chain c| |] eqn:Hw;
    [|by apply elem_of_nil in Hu|by apply elem_of_nil in Hu].
  apply list_elem_of_fmap in Hu as (j & -> & Hj).
  exists g, n, idx, chain, c. by split_and!.
Qed.

(** What the pass does to one edge: the importance is set, to a value
    that is not above the old one. *)
Lemma ReclassifyLinks_edge no_class max_depth gb i e :
  edges_ gb !! i = Some e →
  ∃ v, v ≤ Edge.importance (Edge.attributes e) ∧
       edges_ (ReclassifyLinks no_class max_depth gb) !! i =
       Some (Edge.with_attributes (Edge.set_importance v (Edge.attributes e)) e).
Proof.
  intros He. rewrite ReclassifyLinks_closed. simpl.
  rewrite apply_updates_lookup, He. simpl. rewrite lower_all_closed.
  eexists. split; [|done]. apply foldl_min_le.
Qed.



(** ** Shape-point count *)

Lemma llcount_add_latlng e :
  Edge.llcount (Edge.attributes (add_latlng e)) =
  (Edge.llcount (Edge.attributes e) + 1) mod 2 ^ 16.
Proof. unfold add_latlng. simpl. apply llcount_set_llcount. Qed.

Lemma llcount_lt a : Edge.llcount a < 2 ^ 16.
Proof. apply (get_lt 0 16). Qed.

Lemma llcount_add_latlngs k e :
  Edge.llcount (Edge.attributes (Nat.iter k add_latlng e)) =
  (Edge.llcount (Edge.attributes e) + N.of_nat k) mod 2 ^ 16.
Proof.
  induction k as [|k IH].
  - simpl. rewrite N.add_0_r. symmetry. apply N.mod_small, llcount_lt.
  - change (Nat.iter (S k) add_latlng e) with (add_latlng (Nat.iter k add_latlng e)).
    rewrite Nat2N.inj_succ, llcount_add_latlng, IH.
    rewrite N.Div0.add_mod_idemp_l. f_equal. lia.
Qed.

Lemma llcount_run_edge d s w l way run :
  (1 ≤ run)%nat →
  Edge.llcount (Edge.attributes (run_edge d s w l way run)) =
  N.of_nat run mod 2 ^ 16.
Proof.
  intros Hrun. unfold run_edge. rewrite llcount_add_latlngs.
  destruct (make_edge_attributes d s w l way) as (-> & _).
  f_equal. lia.
Qed.



(** ** The sample graph *)

(** With a depth bound of 3 the ramp is reclassified from both ends and
    its three edges end with importance 1, the better of 2 and 1; the
    through roads keep theirs. *)
Example sample_reclassified :
  importances (ReclassifyLinks 7 3 sample_builder) = [2; 4; 1; 1; 1; 1] ∧
  depth_warnings (stats_ (ReclassifyLinks 7 3 sample_builder)) = 0%nat.
Proof. by vm_compute. Qed.

(** With a depth bound of 2 the ramp is too long from either end: every
    edge keeps its importance and two warnings are counted. *)
Example sample_bound_exceeded :
  importances (ReclassifyLinks 7 2 sample_builder) = [2; 4; 5; 6; 5; 1] ∧
  depth_warnings (stats_ (ReclassifyLinks 7 2 sample_builder)) = 2%nat.
Proof. by vm_compute. Qed.

Example sample_best_class :
  GetBestNonLinkClass 7 sample_junction sample_edges = 2.
Proof. by vm_compute. Qed.

Lemma sample_junction_listed :
  (sample_node_id 0, sample_junction) ∈ all_nodes (tilednodes_ sample_builder).
Proof. apply list_elem_of_In. vm_compute. by left. Qed.

Lemma GetBestNonLinkClass_minimum_witness :
  (∃ idx e, idx ∈ Node.edges sample_junction ∧ sample_edges !! idx = Some e ∧
            Edge.link (Edge.attributes e) = false ∧
            Edge.importance (Edge.attributes e) =
              GetBestNonLinkClass 7 sample_junction sample_edges) ∧
  (∀ idx e, idx ∈ Node.edges sample_junction → sample_edges !! idx = Some e →
            Edge.link (Edge.attributes e) = false →
            GetBestNonLinkClass 7 sample_junction sample_edges ≤
              Edge.importance (Edge.attributes e)).
Proof.
  apply (GetBestNonLinkClass_minimum 7 sample_junction sample_edges).
  exists 1%nat, (sample_edge 0 5 4 false). split_and!.
  - apply list_elem_of_In. vm_compute. right. by left.
  - reflexivity.
  - by vm_compute.
Defined.


Lemma UpdateRestrictions_rewrites_witness :
  (∃ r', Forall2 (λ k g, nodes_ sample_builder !! k = Some g) [77; 78] r' ∧
         (UpdateRestrictions [[78]; [77; 78]; [77]] sample_builder).1 =
           (UpdateRestrictions [[78]] sample_builder).1 ++
           r' :: (UpdateRestrictions [[77]] sample_builder).1 ∧
         restriction_defects
           (stats_ (UpdateRestrictions [[78]; [77; 78]; [77]] sample_builder).2) =
         restriction_defects
           (stats_ (UpdateRestrictions [[78]; [77]] sample_builder).2)) ∧
  ((UpdateRestrictions [[78]; [77; 99]; [77]] sample_builder).1 =
     (UpdateRestrictions [[78]; [77]] sample_builder).1 ∧
   restriction_defects
     (stats_ (UpdateRestrictions [[78]; [77; 99]; [77]] sample_builder).2) =
   S (restriction_defects
        (stats_ (UpdateRestrictions [[78]; [77]] sample_builder).2))).
Proof.
  split.
  - apply (UpdateRestrictions_rewrites sample_builder [[78]] [[77]] [77; 78]).
    apply Forall_cons. split; [by exists (sample_node_id 0)|].
    apply Forall_cons. split; [by exists (sample_node_id 3)|].
    apply Forall_nil_2.
  - apply (UpdateRestrictions_rewrites sample_builder [[78]] [[77]] [77; 99]).
    intros Hall. apply Forall_cons in Hall as [_ Hall].
    apply Forall_cons in Hall as [[g Hg] _]. by vm_compute in Hg.
Defined.


(** On the forked ramp with a depth bound of 2 the chain from junction 0
    runs out of depth and is counted, and the walk from junction 4
    lowers the edges 3 and 1. *)
Example forked_reclassified :
  importances forked_builder = [3; 5; 5; 5; 5; 5; 0] ∧
  importances (ReclassifyLinks 7 2 forked_builder) = [3; 0; 5; 0; 5; 5; 0] ∧
  depth_warnings (stats_ (ReclassifyLinks 7 2 forked_builder)) = 1%nat.
Proof. by vm_compute. Qed.

(** * Further properties of the source *)

(** ** Node: edge count, attributes and setters *)

Lemma AddEdges_attributes_kept calls n :
  let a := Node.attributes n in
  let a' := Node.attributes (Node.AddEdges calls n) in
  attr_access_mask a' = attr_access_mask a ∧
  attr_type a' = attr_type a ∧
  attr_exit_to a' = attr_exit_to a ∧
  attr_ref a' = attr_ref a ∧
  attr_name a' = attr_name a ∧
  attr_traffic_signal a' = attr_traffic_signal a.
Proof.
  induction calls as [|c calls IH] using rev_ind; [done|].
  rewrite AddEdges_snoc. cbv zeta in *.
  destruct IH as (H1 & H2 & H3 & H4 & H5 & H6).
  unfold Node.AddEdge. destruct c.2; simpl; by split_and!.
Qed.

(** X1.  [edge_count()] after a run of [AddEdge] calls on any node is the
    count before plus the number of calls, modulo 2^32: the count is the
    list size narrowed to the 32-bit return type, so it is always below
    2^32 and wraps round where the size reaches 2^32. *)
Theorem edge_count_AddEdges (n : Node.t) (calls : list (nat * bool)) :
  Node.edge_count (Node.AddEdges calls n) =
    (Node.edge_count n + N.of_nat (length calls)) mod 2 ^ 32 ∧
  Node.edge_count (Node.AddEdges calls n) < 2 ^ 32 ∧
  (∀ e l, Node.edge_count (Node.AddEdge e l n) =
          (Node.edge_count n + 1) mod 2 ^ 32).
Proof.
  assert (Hlaw : ∀ cs, Node.edge_count (Node.AddEdges cs n) =
            (Node.edge_count n + N.of_nat (length cs)) mod 2 ^ 32).
  { intros cs. unfold Node.edge_count.
    rewrite AddEdges_edges, length_app, length_fmap, Nat2N.inj_add.
    by rewrite N.Div0.add_mod_idemp_l. }
  split_and!.
  - apply Hlaw.
  - unfold Node.edge_count. by apply N.mod_upper_bound.
  - intros e l. apply (Hlaw [(e, l)]).
Qed.

(** X2.  No run of [AddEdge] calls changes an attribute other than the
    two link flags: exit_to, ref, name, access mask, type and traffic
    signal read the same before and after. *)
Theorem AddEdges_keeps_attributes (n : Node.t) (calls : list (nat * bool)) :
  Node.exit_to (Node.AddEdges calls n) = Node.exit_to n ∧
  Node.ref (Node.AddEdges calls n) = Node.ref n ∧
  Node.name (Node.AddEdges calls n) = Node.name n ∧
  Node.access_mask (Node.AddEdges calls n) = Node.access_mask n ∧
  Node.type (Node.AddEdges calls n) = Node.type n ∧
  Node.traffic_signal (Node.AddEdges calls n) = Node.traffic_signal n.
Proof.
  destruct (AddEdges_attributes_kept calls n) as (H1 & H2 & H3 & H4 & H5 & H6).
  unfold Node.exit_to, Node.ref, Node.name, Node.access_mask, Node.type,
    Node.traffic_signal. by split_and!.
Qed.

(** X3.  Whatever the two constructors, [AddEdge] and the setters build,
    the node reports a link edge or a non-link edge exactly when its
    edge list is not empty. *)
Theorem constructed_flags_iff_edges (access_mask_w type_w : N) (n : Node.t) :
  constructed access_mask_w type_w n →
  (Node.edges n ≠ [] ↔ Node.link_edge n || Node.non_link_edge n = true).
Proof.
  induction 1 as [|attr e l|e l n _ _|b n _ IH|b n _ IH|b n _ IH|v n _ IH|v n _ IH];
    try exact IH.
  - done.
  - split; [intros _|done].
    unfold Node.link_edge, Node.non_link_edge. simpl.
    destruct l; simpl; [done|]. apply orb_true_r.
  - split; [intros _|].
    + unfold Node.link_edge, Node.non_link_edge, Node.AddEdge.
      destruct l; simpl; [done|]. apply orb_true_r.
    + intros _. simpl. by destruct (Node.edges n).
Qed.

Lemma constructed_flags_iff_edges_witness :
  Node.edges sample_constructed ≠ [] ↔
  Node.link_edge sample_constructed || Node.non_link_edge sample_constructed = true.
Proof.
  apply (constructed_flags_iff_edges 8 4 sample_constructed).
  unfold sample_constructed. repeat constructor.
Defined.

(** X4.  What a setter stored is what the getter reads, also after any
    run of [AddEdge] calls: the flags exit_to, ref and traffic_signal as
    given, the access mask cut to the width of its field, and the type
    narrowed to 8 bits and then cut to the width of its field. *)
Theorem setters_read_back (access_mask_w type_w : N) (n : Node.t)
    (calls : list (nat * bool)) (b : bool) (v : N) :
  Node.exit_to (Node.AddEdges calls (Node.set_exit_to b n)) = b ∧
  Node.ref (Node.AddEdges calls (Node.set_ref b n)) = b ∧
  Node.traffic_signal (Node.AddEdges calls (Node.set_traffic_signal b n)) = b ∧
  Node.access_mask (Node.AddEdges calls (Node.set_access_mask access_mask_w v n)) =
    v mod 2 ^ access_mask_w ∧
  Node.type (Node.AddEdges calls (Node.set_type type_w v n)) =
    (v mod 2 ^ 8) mod 2 ^ type_w.
Proof.
  split_and!.
  - by destruct (AddEdges_keeps_attributes (Node.set_exit_to b n) calls)
      as (-> & _).
  - by destruct (AddEdges_keeps_attributes (Node.set_ref b n) calls)
      as (_ & -> & _).
  - by destruct (AddEdges_keeps_attributes (Node.set_traffic_signal b n) calls)
      as (_ & _ & _ & _ & _ & ->).
  - by destruct (AddEdges_keeps_attributes
                   (Node.set_access_mask access_mask_w v n) calls)
      as (_ & _ & _ & -> & _).
  - by destruct (AddEdges_keeps_attributes (Node.set_type type_w v n) calls)
      as (_ & _ & _ & _ & -> & _).
Qed.

Lemma AddEdges_commutes (f : NodeAttributes → NodeAttributes) calls n :
  (∀ b a, f (set_attr_link_edge b a) = set_attr_link_edge b (f a)) →
  (∀ b a, f (set_attr_non_link_edge b a) = set_attr_non_link_edge b (f a)) →
  Node.Mk (Node.edges (Node.AddEdges calls n))
          (f (Node.attributes (Node.AddEdges calls n))) =
  Node.AddEdges calls (Node.Mk (Node.edges n) (f (Node.attributes n))).
Proof.
  intros Hl Hnl. induction calls as [|c calls IH] using rev_ind; [done|].
  rewrite !AddEdges_snoc, <- IH. unfold Node.AddEdge. simpl.
  destruct c.2; by rewrite ?Hl, ?Hnl.
Qed.

(** X5.  A setter and a run of [AddEdge] calls can be done in either
    order with the same node as result, and a setter leaves the edge
    list, the edge count and the two link flags as they are. *)
Theorem setters_commute_with_AddEdges (access_mask_w type_w : N) (n : Node.t)
    (calls : list (nat * bool)) (b : bool) (v : N) :
  Node.set_exit_to b (Node.AddEdges calls n) =
    Node.AddEdges calls (Node.set_exit_to b n) ∧
  Node.set_ref b (Node.AddEdges calls n) =
    Node.AddEdges calls (Node.set_ref b n) ∧
  Node.set_traffic_signal b (Node.AddEdges calls n) =
    Node.AddEdges calls (Node.set_traffic_signal b n) ∧
  Node.set_access_mask access_mask_w v (Node.AddEdges calls n) =
    Node.AddEdges calls (Node.set_access_mask access_mask_w v n) ∧
  Node.set_type type_w v (Node.AddEdges calls n) =
    Node.AddEdges calls (Node.set_type type_w v n) ∧
  (∀ set, set ∈ [Node.set_exit_to b; Node.set_ref b; Node.set_traffic_signal b;
                 Node.set_access_mask access_mask_w v; Node.set_type type_w v] →
     Node.edges (set n) = Node.edges n ∧
     Node.edge_count (set n) = Node.edge_count n ∧
     Node.link_edge (set n) = Node.link_edge n ∧
     Node.non_link_edge (set n) = Node.non_link_edge n).
Proof.
  split_and!.
  - by apply (AddEdges_commutes (set_attr_exit_to b)).
  - by apply (AddEdges_commutes (set_attr_ref b)).
  - by apply (AddEdges_commutes (set_attr_traffic_signal b)).
  - by apply (AddEdges_commutes (set_attr_access_mask (v mod 2 ^ access_mask_w))).
  - by apply (AddEdges_commutes (set_attr_type ((v mod 2 ^ 8) mod 2 ^ type_w))).
  - intros set Hset. repeat (apply elem_of_cons in Hset as [->|Hset]; [done|]).
    by apply elem_of_nil in Hset.
Qed.

(** ** Edge: the attribute word *)

Lemma set_mod off w v a : Bits.set off w (v mod 2 ^ w) a = Bits.set off w v a.
Proof.
  apply N.bits_inj. intros i. rewrite !testbit_set.
  destruct (N.leb_spec off i); simpl; [|done].
  destruct (N.ltb_spec i (off + w)); [|done].
  apply N.mod_pow2_bits_low. lia.
Qed.

Lemma below_pow2 a n : (∀ i, n ≤ i → N.testbit a i = false) → a < 2 ^ n.
Proof.
  intros Hhigh. assert (a = a mod 2 ^ n) as ->.
  { apply N.bits_inj. intros i. destruct (N.lt_ge_cases i n).
    - by rewrite N.mod_pow2_bits_low.
    - by rewrite N.mod_pow2_bits_high, Hhigh. }
  apply N.mod_upper_bound, N.pow_nonzero. lia.
Qed.

Lemma above_pow2 a n i : a < 2 ^ n → n ≤ i → N.testbit a i = false.
Proof.
  intros Ha Hi. rewrite <- (N.mod_small a (2 ^ n)) by done.
  by apply N.mod_pow2_bits_high.
Qed.

Lemma set_lt n off w v a :
  a < 2 ^ n → off + w ≤ n → Bits.set off w v a < 2 ^ n.
Proof.
  intros Ha Hw. apply below_pow2. intros i Hi. rewrite testbit_set.
  destruct (N.leb_spec off i); simpl; [|by apply (above_pow2 a n)].
  destruct (N.ltb_spec i (off + w)); [lia|by apply (above_pow2 a n)].
Qed.

(** Two words with the same field have the same bits there. *)
Lemma field_bit off w a b i :
  Bits.get off w a = Bits.get off w b → off ≤ i → i < off + w →
  N.testbit a i = N.testbit b i.
Proof.
  intros Hf Hlo Hhi. assert (H := f_equal (λ x, N.testbit x (i - off)) Hf).
  simpl in H. rewrite !testbit_get in H.
  replace (i - off <? w) with true in H by (symmetry; apply N.ltb_lt; lia).
  replace (i - off + off) with i in H by lia. done.
Qed.

Lemma flag_field off a b :
  Bits.to_bool (Bits.get off 1 a) = Bits.to_bool (Bits.get off 1 b) →
  Bits.get off 1 a = Bits.get off 1 b.
Proof.
  pose proof (get_lt off 1 a) as Ha. pose proof (get_lt off 1 b) as Hb.
  change (2 ^ 1) with 2 in Ha, Hb. unfold Bits.to_bool.
  destruct (N.eqb_spec (Bits.get off 1 a) 0), (N.eqb_spec (Bits.get off 1 b) 0);
    simpl; intros H; try done; lia.
Qed.

Ltac unfold_fields :=
  unfold Edge.fields, Edge.llcount, Edge.importance, Edge.driveableforward,
    Edge.driveablereverse, Edge.traffic_signal, Edge.forward_signal,
    Edge.backward_signal, Edge.link, Edge.spare,
    Edge.set_llcount, Edge.set_importance, Edge.set_driveableforward,
    Edge.set_driveablereverse, Edge.set_link,
    Edge.llcount_off, Edge.llcount_w, Edge.importance_off, Edge.importance_w,
    Edge.driveableforward_off, Edge.driveablereverse_off,
    Edge.traffic_signal_off, Edge.forward_signal_off,
    Edge.backward_signal_off, Edge.link_off, Edge.spare_off, Edge.spare_w.

Ltac stored_field :=
  unfold_fields;
  rewrite ?get_set_same, ?to_bool_of_bool;
  repeat (rewrite get_set_other by (vm_compute; intuition discriminate));
  reflexivity.

(** X6.  Each of the five stores [make_edge] makes into the attribute
    word changes its own field, to the value cut to the width of the
    field, and none of the other eight fields. *)
Theorem attribute_stores_independent (a : Edge.EdgeAttributes) (v : N) (b : bool) :
  Edge.fields (Edge.set_llcount v a) =
    (v mod 2 ^ 16, Edge.importance a, Edge.driveableforward a,
     Edge.driveablereverse a, Edge.traffic_signal a, Edge.forward_signal a,
     Edge.backward_signal a, Edge.link a, Edge.spare a) ∧
  Edge.fields (Edge.set_importance v a) =
    (Edge.llcount a, v mod 2 ^ 3, Edge.driveableforward a,
     Edge.driveablereverse a, Edge.traffic_signal a, Edge.forward_signal a,
     Edge.backward_signal a, Edge.link a, Edge.spare a) ∧
  Edge.fields (Edge.set_driveableforward b a) =
    (Edge.llcount a, Edge.importance a, b,
     Edge.driveablereverse a, Edge.traffic_signal a, Edge.forward_signal a,
     Edge.backward_signal a, Edge.link a, Edge.spare a) ∧
  Edge.fields (Edge.set_driveablereverse b a) =
    (Edge.llcount a, Edge.importance a, Edge.driveableforward a,
     b, Edge.traffic_signal a, Edge.forward_signal a,
     Edge.backward_signal a, Edge.link a, Edge.spare a) ∧
  Edge.fields (Edge.set_link b a) =
    (Edge.llcount a, Edge.importance a, Edge.driveableforward a,
     Edge.driveablereverse a, Edge.traffic_signal a, Edge.forward_signal a,
     Edge.backward_signal a, b, Edge.spare a).
Proof. split_and!; stored_field. Qed.

(** X7.  The nine fields are all there is to a 32-bit attribute word:
    two words with the same nine fields are the same word. *)
Theorem attribute_word_extensional (a b : Edge.EdgeAttributes) :
  a < 2 ^ 32 → b < 2 ^ 32 → Edge.fields a = Edge.fields b → a = b.
Proof.
  intros Ha Hb Hf. unfold_fields.
  injection Hf as Hll Himp Hdf Hdr Hts Hfs Hbs Hl Hsp.
  apply flag_field in Hdf, Hdr, Hts, Hfs, Hbs, Hl.
  apply N.bits_inj. intros i.
  destruct (N.lt_ge_cases i 16); [by apply (field_bit 0 16); [|lia|]|].
  destruct (N.lt_ge_cases i 19); [by apply (field_bit 16 3)|].
  destruct (N.lt_ge_cases i 20); [by apply (field_bit 19 1)|].
  destruct (N.lt_ge_cases i 21); [by apply (field_bit 20 1)|].
  destruct (N.lt_ge_cases i 22); [by apply (field_bit 21 1)|].
  destruct (N.lt_ge_cases i 23); [by apply (field_bit 22 1)|].
  destruct (N.lt_ge_cases i 24); [by apply (field_bit 23 1)|].
  destruct (N.lt_ge_cases i 25); [by apply (field_bit 24 1)|].
  destruct (N.lt_ge_cases i 32); [by apply (field_bit 25 7)|].
  by rewrite (above_pow2 a 32), (above_pow2 b 32).
Qed.

Lemma attribute_word_extensional_witness :
  Edge.attributes (Edge.make_edge sample_default (sample_node_id 1) 0 0 sample_way)
  = Edge.set_link true (Edge.set_driveableforward true
      (Edge.set_importance 4 (Edge.set_llcount 1 0))).
Proof.
  apply attribute_word_extensional; by vm_compute.
Defined.

(** X8.  A store into the attribute word never leaves the 32 bits of the
    word, and the word [make_edge] builds is a 32-bit value. *)
Theorem attribute_word_32_bits (a : Edge.EdgeAttributes) (v : N) (b : bool)
    (d s : GraphId) (w l : N) (way : OSMWay) :
  a < 2 ^ 32 →
  Edge.set_llcount v a < 2 ^ 32 ∧
  Edge.set_importance v a < 2 ^ 32 ∧
  Edge.set_driveableforward b a < 2 ^ 32 ∧
  Edge.set_driveablereverse b a < 2 ^ 32 ∧
  Edge.set_link b a < 2 ^ 32 ∧
  Edge.attributes (Edge.make_edge d s w l way) < 2 ^ 32.
Proof.
  intros Ha. unfold Edge.make_edge. simpl. unfold_fields.
  split_and!; repeat (apply set_lt; [|by vm_compute]); done.
Qed.

Lemma attribute_word_32_bits_witness :
  Edge.set_llcount 70000 4294967295 < 2 ^ 32 ∧
  Edge.set_importance 70000 4294967295 < 2 ^ 32 ∧
  Edge.set_driveableforward false 4294967295 < 2 ^ 32 ∧
  Edge.set_driveablereverse false 4294967295 < 2 ^ 32 ∧
  Edge.set_link false 4294967295 < 2 ^ 32 ∧
  Edge.attributes
    (Edge.make_edge sample_default (sample_node_id 1) 0 0 sample_way) < 2 ^ 32.
Proof.
  apply (attribute_word_32_bits 4294967295 70000 false sample_default
           (sample_node_id 1) 0 0 sample_way).
  reflexivity.
Defined.

(** The edge [make_edge] builds for a way is the one it builds for the
    way with the road class reduced modulo 8. *)
Lemma make_edge_road_class_mod d s w l way :
  Edge.make_edge d s w l way =
  Edge.make_edge d s w l
    (MkOSMWay (road_class way mod 8) (auto_forward way) (auto_backward way)
              (way_link way)).
Proof.
  unfold Edge.make_edge. simpl. unfold Edge.set_importance, Edge.importance_w.
  change 8 with (2 ^ 3). by rewrite set_mod.
Qed.

(** X9.  Two calls of [make_edge] build the same edge exactly when they
    agree on the source node, the way index, the coordinate index, the
    default target, the two driveable flags, the link flag, and on the
    road class modulo 8: road classes that differ by a multiple of 8 are
    not told apart, everything else is. *)
Theorem make_edge_eq_iff (d d' s s' : GraphId) (w w' l l' : N) (way way' : OSMWay) :
  Edge.make_edge d s w l way = Edge.make_edge d' s' w' l' way' ↔
  d = d' ∧ s = s' ∧ w = w' ∧ l = l' ∧
  road_class way mod 8 = road_class way' mod 8 ∧
  auto_forward way = auto_forward way' ∧
  auto_backward way = auto_backward way' ∧
  way_link way = way_link way'.
Proof.
  split.
  - intros Heq.
    destruct (make_edge_attributes d s w l way)
      as (_ & Himp & Hf & Hr & _ & _ & _ & Hl & _).
    destruct (make_edge_attributes d' s' w' l' way')
      as (_ & Himp' & Hf' & Hr' & _ & _ & _ & Hl' & _).
    cbv zeta in *. rewrite Heq in Himp, Hf, Hr, Hl.
    assert (Hs := f_equal Edge.sourcenode_ Heq).
    assert (Hw := f_equal Edge.wayindex_ Heq).
    assert (Hll := f_equal Edge.llindex_ Heq).
    assert (Hd := f_equal Edge.targetnode_ Heq).
    simpl in Hs, Hw, Hll, Hd.
    change (2 ^ 3) with 8 in Himp, Himp'.
    split_and!; congruence.
  - intros (-> & -> & -> & -> & Hrc & Hf & Hr & Hl).
    rewrite (make_edge_road_class_mod d' s' w' l' way),
      (make_edge_road_class_mod d' s' w' l' way').
    by rewrite Hrc, Hf, Hr, Hl.
Qed.
